(** * LockFreeSPSC: a bounded single-producer/single-consumer ring buffer

    Shallow embedding of [include/LockFreeSPSC.h] and its sequential
    specification.  The class template [LockFreeSPSC<T, Capacity>] becomes a
    section over the element type [T], the width of [size_t] and the template
    argument [Capacity]; the object is a record with one field per data
    member; every member function is a computation in a small monad that
    threads the object, records the atomic and array accesses it performs and
    has a distinguished outcome for undefined behaviour (an array index
    outside the array).  The two thread bodies of
    [LockFreeSPSC_Tests/QueueTests.cpp] are embedded as step functions on
    the variables they capture, scheduled one call at a time. *)

From Stdlib Require Import ZArith Lia.
From stdpp Require Import base list.

Local Open Scope Z_scope.

(** ** Memory accesses *)

(** The three [std::memory_order] values the header uses. *)
Inductive memory_order : Set :=
  | memory_order_relaxed
  | memory_order_acquire
  | memory_order_release.

(** The two [std::atomic<size_t>] members. *)
Inductive cursor : Set := Head | Tail.

(** What a member function does to shared memory: atomic loads and stores of
    a cursor, and plain reads and writes of a slot of [buffer_]. *)
Inductive access : Set :=
  | Load (c : cursor) (o : memory_order)
  | Store (c : cursor) (o : memory_order) (v : Z)
  | SlotRead (i : Z)
  | SlotWrite (i : Z).

Definition is_atomic_load (a : access) : bool :=
  match a with Load _ _ => true | _ => false end.

Definition is_atomic_store (a : access) : bool :=
  match a with Store _ _ _ => true | _ => false end.

Definition is_slot_access (a : access) : bool :=
  match a with SlotRead _ | SlotWrite _ => true | _ => false end.

Section LockFreeSPSC.

(** Element type, width of [size_t] in bits, and the template argument. *)
Context {T : Type}.
Variable bits : Z.
Variable Capacity : Z.

(** Arithmetic on [size_t] is modulo [2 ^ bits]. *)
Definition wrap (x : Z) : Z := x mod 2 ^ bits.

(** [static constexpr size_t buffer_size = Capacity + 1;] *)
Definition buffer_size : Z := wrap (Capacity + 1).

(** The instantiations the development talks about: a positive capacity
    whose successor is representable, so that [buffer_size] is
    [Capacity + 1] and the array bound of [buffer_] is not zero. *)
Definition capacity_ok : Prop := 1 <= Capacity /\ Capacity + 1 < 2 ^ bits.

(** ** The object *)

Record LockFreeSPSC : Type := mkQueue {
  buffer_ : list T;
  head_ : Z;
  cached_tail_ : Z;
  tail_ : Z;
  cached_head_ : Z
}.

(** A default-initialised queue: the four indices are zero; the slots hold
    whatever default initialisation of [T] leaves there, [init]. *)
Definition fresh (init : list T) : LockFreeSPSC :=
  {| buffer_ := init; head_ := 0; cached_tail_ := 0;
     tail_ := 0; cached_head_ := 0 |}.

(** ** The monad of member functions *)

Inductive outcome (A : Type) : Type :=
  | Undefined
  | Done (a : A) (q : LockFreeSPSC) (tr : list access).
Arguments Undefined {A}.
Arguments Done {A} a q tr.

Definition M (A : Type) : Type := LockFreeSPSC -> outcome A.

Definition ret {A} (a : A) : M A := fun q => Done a q [].

Definition bind {A B} (m : M A) (k : A -> M B) : M B := fun q =>
  match m q with
  | Undefined => Undefined
  | Done a q1 tr1 =>
      match k a q1 with
      | Undefined => Undefined
      | Done b q2 tr2 => Done b q2 (tr1 ++ tr2)
      end
  end.

#[local] Instance M_ret : MRet M := @ret.
#[local] Instance M_bind : MBind M := fun A B k m => bind m k.

(** [head_.load(o)] and [tail_.load(o)]. *)
Definition load (c : cursor) (o : memory_order) : M Z := fun q =>
  Done (match c with Head => head_ q | Tail => tail_ q end) q [Load c o].

(** [head_.store(v, o)] and [tail_.store(v, o)]. *)
Definition store (c : cursor) (v : Z) (o : memory_order) : M unit := fun q =>
  Done tt
    (match c with
     | Head => {| buffer_ := buffer_ q; head_ := v;
                  cached_tail_ := cached_tail_ q; tail_ := tail_ q;
                  cached_head_ := cached_head_ q |}
     | Tail => {| buffer_ := buffer_ q; head_ := head_ q;
                  cached_tail_ := cached_tail_ q; tail_ := v;
                  cached_head_ := cached_head_ q |}
     end)
    [Store c o v].

(** The shadow copies are ordinary members: no access is recorded. *)
Definition get_cached_head : M Z := fun q => Done (cached_head_ q) q [].
Definition get_cached_tail : M Z := fun q => Done (cached_tail_ q) q [].

Definition set_cached_head (v : Z) : M unit := fun q =>
  Done tt {| buffer_ := buffer_ q; head_ := head_ q;
             cached_tail_ := cached_tail_ q; tail_ := tail_ q;
             cached_head_ := v |} [].

Definition set_cached_tail (v : Z) : M unit := fun q =>
  Done tt {| buffer_ := buffer_ q; head_ := head_ q;
             cached_tail_ := v; tail_ := tail_ q;
             cached_head_ := cached_head_ q |} [].

(** [buffer_[i]] as an rvalue: undefined outside the array. *)
Definition read_slot (i : Z) : M T := fun q =>
  if (0 <=? i) then
    match buffer_ q !! Z.to_nat i with
    | Some x => Done x q [SlotRead i]
    | None => Undefined
    end
  else Undefined.

(** [buffer_[i] = item]: undefined outside the array. *)
Definition write_slot (i : Z) (item : T) : M unit := fun q =>
  if (0 <=? i) && (i <? Z.of_nat (length (buffer_ q))) then
    Done tt {| buffer_ := <[Z.to_nat i := item]> (buffer_ q);
               head_ := head_ q; cached_tail_ := cached_tail_ q;
               tail_ := tail_ q; cached_head_ := cached_head_ q |}
         [SlotWrite i]
  else Undefined.

(** ** Member functions *)

(** [return (current_idx + 1) % buffer_size;]  The addition is on [size_t];
    the divisor is not zero in the instantiations of [capacity_ok]. *)
Definition next_index (current_idx : Z) : Z :=
  wrap (current_idx + 1) mod buffer_size.

(** The last three statements of [push], reached from both branches of the
    outer test. *)
Definition push_publish (current_tail next_tail : Z) (item : T) : M bool :=
  write_slot current_tail item ;;
  store Tail next_tail memory_order_release ;;
  ret true.

Definition push (item : T) : M bool :=
  current_tail ← load Tail memory_order_relaxed;
  let next_tail := next_index current_tail in
  c ← get_cached_head;
  if next_tail =? c then
    h ← load Head memory_order_acquire;
    set_cached_head h ;;
    c' ← get_cached_head;
    if next_tail =? c' then ret false
    else push_publish current_tail next_tail item
  else push_publish current_tail next_tail item.

(** The last three statements of [pop], reached from both branches of the
    outer test. *)
Definition pop_take (current_head : Z) : M (option T) :=
  item ← read_slot current_head;
  store Head (next_index current_head) memory_order_release ;;
  ret (Some item).

Definition pop : M (option T) :=
  current_head ← load Head memory_order_relaxed;
  c ← get_cached_tail;
  if current_head =? c then
    t ← load Tail memory_order_acquire;
    set_cached_tail t ;;
    c' ← get_cached_tail;
    if current_head =? c' then ret None
    else pop_take current_head
  else pop_take current_head.

(** The two loads of [empty] and [full] are operands of [==]; the model
    performs them left to right.  The language leaves the order open, so
    the theorem about these two functions speaks of their accesses up to
    permutation. *)
Definition empty : M bool :=
  h ← load Head memory_order_acquire;
  t ← load Tail memory_order_acquire;
  ret (h =? t).

Definition full : M bool :=
  t ← load Tail memory_order_acquire;
  h ← load Head memory_order_acquire;
  ret (next_index t =? h).

(** ** Callers

    The specification speaks of sequences of calls made by the two sides.
    A call is a [push] of an item or a [pop]; running a list of calls yields
    what each call returned. *)

Inductive call : Type :=
  | Push (item : T)
  | Pop.

Inductive event : Type :=
  | Pushed (item : T) (ok : bool)
  | Popped (r : option T).

Definition perform (c : call) : M event :=
  match c with
  | Push item => ok ← push item; ret (Pushed item ok)
  | Pop => r ← pop; ret (Popped r)
  end.

Fixpoint run (cs : list call) : M (list event) :=
  match cs with
  | [] => ret []
  | c :: cs' => e ← perform c; es ← run cs'; ret (e :: es)
  end.

(** The items the producer offered, the items the queue accepted, and the
    items the consumer received, each in call order. *)
Definition offered (cs : list call) : list T :=
  omap (fun c => match c with Push item => Some item | Pop => None end) cs.

Definition accepted (es : list event) : list T :=
  omap (fun e => match e with Pushed item true => Some item | _ => None end) es.

Definition received (es : list event) : list T :=
  omap (fun e => match e with Popped r => r | _ => None end) es.

Definition all_accepted (es : list event) : bool :=
  forallb (fun e => match e with Pushed _ ok => ok | Popped _ => true end) es.

(** The consumer draining the queue: [pop] until it returns no value.
    [None] means the fuel ran out before that. *)
Fixpoint drain (fuel : nat) : M (option (list T)) :=
  match fuel with
  | O => ret None
  | S fuel' =>
      r ← pop;
      match r with
      | None => ret (Some [])
      | Some x => rest ← drain fuel'; ret (cons x <$> rest)
      end
  end.

(** The producer pushing a list of items, one call each. *)
Fixpoint push_all (items : list T) : M (list bool) :=
  match items with
  | [] => ret []
  | item :: items' => ok ← push item; oks ← push_all items'; ret (ok :: oks)
  end.

(** The consumer calling [pop] [n] times. *)
Fixpoint pop_n (n : nat) : M (list (option T)) :=
  match n with
  | O => ret []
  | S n' => r ← pop; rs ← pop_n n'; ret (r :: rs)
  end.

(** ** Abstraction and invariants *)

(** Number of items held: [(tail - head) mod (N+1)]. *)
Definition count (q : LockFreeSPSC) : Z :=
  (tail_ q - head_ q) mod buffer_size.

(** Occupancy as the producer sees it through [cached_head_], and as the
    consumer sees it through [cached_tail_]. *)
Definition producer_view (q : LockFreeSPSC) : Z :=
  (tail_ q - cached_head_ q) mod buffer_size.

Definition consumer_view (q : LockFreeSPSC) : Z :=
  (cached_tail_ q - head_ q) mod buffer_size.

(** The [n] slots starting at index [i], following [next_index]. *)
Fixpoint live (buf : list T) (i : Z) (n : nat) : list T :=
  match n with
  | O => []
  | S n' =>
      match buf !! Z.to_nat i with
      | Some x => x :: live buf (next_index i) n'
      | None => []
      end
  end.

(** The items pushed and not yet popped, oldest first. *)
Definition contents (q : LockFreeSPSC) : list T :=
  live (buffer_ q) (head_ q) (Z.to_nat (count q)).

Definition in_range (i : Z) : Prop := 0 <= i < buffer_size.

(** The invariant of section 3 of the specification. *)
Definition cursor_inv (q : LockFreeSPSC) : Prop :=
  in_range (head_ q) /\ in_range (tail_ q) /\ 0 <= count q <= Capacity.

(** The invariant relating the shadow copies to the cursors. *)
Definition cache_inv (q : LockFreeSPSC) : Prop :=
  in_range (cached_head_ q) /\ in_range (cached_tail_ q) /\
  consumer_view q <= count q /\ count q <= producer_view q.

Definition Inv (q : LockFreeSPSC) : Prop :=
  Z.of_nat (length (buffer_ q)) = buffer_size /\ cursor_inv q /\ cache_inv q.

(** ** Index arithmetic *)

End LockFreeSPSC.

Arguments Undefined {T A}.
Arguments Done {T A} a q tr.

(** ** The stress test

    [HeavyConcurrencyTest] of [LockFreeSPSC_Tests/QueueTests.cpp]: a queue of
    [int]; a producer thread that pushes [0 .. item_count - 1], calling
    [push] again after a yield whenever it returns [false]; a consumer thread
    that calls [pop] until it has received [item_count] items, yielding
    whenever no value comes back.  In the source the two threads run in
    parallel.  Here a step of a thread is one iteration of its retry loop
    (one whole call of [push] or [pop] and the bookkeeping that follows it),
    and a schedule is the list of threads in the order they take their
    steps.  The source fixes the capacity to 16 and [item_count] to 500000;
    both are parameters here.  Signed overflow and an array index out of
    bounds are undefined behaviour: the step has no result. *)

Definition INT_MAX : Z := 2 ^ 31 - 1.
Definition LLONG_MAX : Z := 2 ^ 63 - 1.

Definition fits_int (x : Z) : bool := (- INT_MAX - 1 <=? x) && (x <=? INT_MAX).

Definition fits_llong (x : Z) : bool :=
  (- LLONG_MAX - 1 <=? x) && (x <=? LLONG_MAX).

(** The variables the two lambdas capture, and the loop variable [i] of the
    producer. *)
Record test_state : Type := mkTest {
  queue : @LockFreeSPSC Z;
  i_ : Z;
  producer_sum : Z;
  items_received : Z;
  consumer_sum : Z
}.

Inductive thread : Set := producer | consumer.

(** The integers [lo, lo + 1, ...], [n] of them. *)
Fixpoint consecutive (lo : Z) (n : nat) : list Z :=
  match n with
  | O => []
  | S n' => lo :: consecutive (lo + 1) n'
  end.

(** The schedule in which the threads alternate, the producer first. *)
Fixpoint round_robin (n : nat) : list thread :=
  match n with
  | O => []
  | S n' => producer :: consumer :: round_robin n'
  end.

Section HeavyConcurrencyTest.

Variable bits : Z.
Variable Capacity : Z.
Variable item_count : Z.

(** [LockFreeSPSC<int, Capacity> queue;] and the two sums at zero. *)
Definition test_start (init : list Z) : test_state :=
  {| queue := fresh init; i_ := 0; producer_sum := 0;
     items_received := 0; consumer_sum := 0 |}.

(** One iteration of [while (!queue.push(i))] inside
    [for (int i = 0; i < item_count; ++i)]: a rejected push yields; an
    accepted one is followed by [producer_sum += i] and [++i].  Once the
    [for] loop has ended the thread does nothing. *)
Definition producer_step (s : test_state) : option test_state :=
  if i_ s <? item_count then
    match push bits Capacity (i_ s) (queue s) with
    | Undefined => None
    | Done true q' _ =>
        if fits_llong (producer_sum s + i_ s) && fits_int (i_ s + 1) then
          Some {| queue := q'; i_ := i_ s + 1;
                  producer_sum := producer_sum s + i_ s;
                  items_received := items_received s;
                  consumer_sum := consumer_sum s |}
        else None
    | Done false q' _ =>
        Some {| queue := q'; i_ := i_ s; producer_sum := producer_sum s;
                items_received := items_received s;
                consumer_sum := consumer_sum s |}
    end
  else Some s.

(** One iteration of [while (items_received < item_count)]: a value is
    followed by [consumer_sum += *val] and [items_received++]; no value
    yields.  Once the loop has ended the thread does nothing. *)
Definition consumer_step (s : test_state) : option test_state :=
  if items_received s <? item_count then
    match pop bits Capacity (queue s) with
    | Undefined => None
    | Done (Some val) q' _ =>
        if fits_llong (consumer_sum s + val)
           && fits_int (items_received s + 1) then
          Some {| queue := q'; i_ := i_ s; producer_sum := producer_sum s;
                  items_received := items_received s + 1;
                  consumer_sum := consumer_sum s + val |}
        else None
    | Done None q' _ =>
        Some {| queue := q'; i_ := i_ s; producer_sum := producer_sum s;
                items_received := items_received s;
                consumer_sum := consumer_sum s |}
    end
  else Some s.

Definition thread_step (t : thread) (s : test_state) : option test_state :=
  match t with
  | producer => producer_step s
  | consumer => consumer_step s
  end.

Fixpoint schedule (ts : list thread) (s : test_state) : option test_state :=
  match ts with
  | [] => Some s
  | t :: ts' =>
      match thread_step t s with
      | Some s' => schedule ts' s'
      | None => None
      end
  end.

(** Both loops have ended, so both [join] calls return. *)
Definition joined (s : test_state) : bool :=
  negb (i_ s <? item_count) && negb (items_received s <? item_count).

(** [static_cast<long long>(item_count) * (item_count - 1) / 2] *)
Definition expected_sum : Z := (item_count * (item_count - 1)) ÷ 2.

(** The two [BOOST_CHECK_EQUAL]s. *)
Definition checks_pass (s : test_state) : bool :=
  (producer_sum s =? consumer_sum s) && (consumer_sum s =? expected_sum).

(** What holds between the calls of the test: the queue is well formed and
    holds the items produced and not yet received, in order, and each sum is
    the sum of the items its thread has handled. *)
Definition test_inv (s : test_state) : Prop :=
  Inv bits Capacity (queue s) /\
  0 <= items_received s <= i_ s /\ i_ s <= item_count /\
  contents bits Capacity (queue s)
  = consecutive (items_received s) (Z.to_nat (i_ s - items_received s)) /\
  2 * producer_sum s = i_ s * (i_ s - 1) /\
  2 * consumer_sum s = items_received s * (items_received s - 1).

End HeavyConcurrencyTest.

Section Theory.

Context {T : Type}.
Variable bits : Z.
Variable Capacity : Z.

#[local] Existing Instance M_ret.
#[local] Existing Instance M_bind.

Local Abbreviation fresh := (@fresh T).
Local Abbreviation empty := (@empty T).
Local Abbreviation offered := (@offered T).
Local Abbreviation accepted := (@accepted T).
Local Abbreviation received := (@received T).
Local Abbreviation all_accepted := (@all_accepted T).
Local Abbreviation wrap := (wrap bits).
Local Abbreviation buffer_size := (buffer_size bits Capacity).
Local Abbreviation capacity_ok := (capacity_ok bits Capacity).
Local Abbreviation next_index := (next_index bits Capacity).
Local Abbreviation push_publish := (@push_publish T bits Capacity).
Local Abbreviation push := (@push T bits Capacity).
Local Abbreviation pop_take := (@pop_take T bits Capacity).
Local Abbreviation pop := (@pop T bits Capacity).
Local Abbreviation full := (@full T bits Capacity).
Local Abbreviation perform := (@perform T bits Capacity).
Local Abbreviation run := (@run T bits Capacity).
Local Abbreviation drain := (@drain T bits Capacity).
Local Abbreviation push_all := (@push_all T bits Capacity).
Local Abbreviation pop_n := (@pop_n T bits Capacity).
Local Abbreviation count := (@count T bits Capacity).
Local Abbreviation producer_view := (@producer_view T bits Capacity).
Local Abbreviation consumer_view := (@consumer_view T bits Capacity).
Local Abbreviation live := (@live T bits Capacity).
Local Abbreviation contents := (@contents T bits Capacity).
Local Abbreviation in_range := (in_range bits Capacity).
Local Abbreviation cursor_inv := (@cursor_inv T bits Capacity).
Local Abbreviation cache_inv := (@cache_inv T bits Capacity).
Local Abbreviation Inv := (@Inv T bits Capacity).

Hypothesis Hcap : capacity_ok.

Lemma buffer_size_eq : buffer_size = Capacity + 1.
Proof.
  unfold buffer_size, wrap. destruct Hcap as [H1 H2].
  apply Z.mod_small. lia.
Qed.

Lemma next_index_range i : in_range (next_index i).
Proof.
  unfold in_range, next_index. apply Z.mod_pos_bound.
  rewrite buffer_size_eq. destruct Hcap; lia.
Qed.

Lemma next_index_step i :
  in_range i ->
  next_index i = if i + 1 =? buffer_size then 0 else i + 1.
Proof.
  unfold in_range, next_index, wrap. intros Hi.
  pose proof buffer_size_eq as Hbs. destruct Hcap as [H1 H2].
  rewrite (Z.mod_small (i + 1)) by lia.
  destruct (Z.eqb_spec (i + 1) buffer_size) as [->|Hne].
  - apply Z_mod_same_full.
  - apply Z.mod_small. lia.
Qed.

Lemma distance_spec a b :
  in_range a -> in_range b ->
  (b - a) mod buffer_size = if a <=? b then b - a else b - a + buffer_size.
Proof.
  unfold in_range. intros Ha Hb.
  destruct (Z.leb_spec a b).
  - apply Z.mod_small. lia.
  - symmetry. apply (Z.mod_unique_pos _ _ (-1)); lia.
Qed.

(** ** One call *)

Ltac step_monad :=
  unfold push, pop, empty, full, push_publish, pop_take, perform,
    mbind, M_bind, bind, mret, M_ret, ret, load, store,
    get_cached_head, get_cached_tail, set_cached_head, set_cached_tail,
    read_slot, write_slot;
  cbn.

Ltac open_inv H :=
  let Hlen := fresh "Hlen" in
  let Hh := fresh "Hh" in let Ht := fresh "Ht" in
  let Hc := fresh "Hc" in let Hch := fresh "Hch" in
  let Hct := fresh "Hct" in let Hcv := fresh "Hcv" in
  let Hpv := fresh "Hpv" in
  destruct H as (Hlen & (Hh & Ht & Hc) & (Hch & Hct & Hcv & Hpv));
  unfold count, producer_view, consumer_view in *; simpl in *;
  rewrite ?(distance_spec _ _ Hh Ht), ?(distance_spec _ _ Hch Ht),
    ?(distance_spec _ _ Hh Hct) in *.

Ltac split_tests :=
  repeat match goal with
  | H : context [Z.leb ?a ?b] |- _ => destruct (Z.leb_spec a b)
  | |- context [Z.leb ?a ?b] => destruct (Z.leb_spec a b)
  | H : context [Z.eqb ?a ?b] |- _ => destruct (Z.eqb_spec a b)
  | |- context [Z.eqb ?a ?b] => destruct (Z.eqb_spec a b)
  | H : context [Z.ltb ?a ?b] |- _ => destruct (Z.ltb_spec a b)
  | |- context [Z.ltb ?a ?b] => destruct (Z.ltb_spec a b)
  end.

Ltac arith :=
  pose proof buffer_size_eq; destruct Hcap; unfold in_range in *;
  cbn in *; split_tests; cbn in *; try lia.

Lemma push_full item q :
  Inv q -> count q = Capacity ->
  exists tr, push item q = Done false q tr.
Proof.
  destruct q as [buf h ct t ch]. intros HI Hfull.
  open_inv HI. step_monad. rewrite (next_index_step _ Ht).
  assert (ch = h) as -> by arith.
  arith; eauto.
Qed.

Lemma live_insert_snoc item buf n i :
  Z.of_nat (length buf) = buffer_size -> in_range i ->
  Z.of_nat n < buffer_size ->
  live (<[Z.to_nat ((i + Z.of_nat n) mod buffer_size) := item]> buf) i (S n)
  = live buf i n ++ [item].
Proof.
  intros Hlen. revert i. induction n as [|n IH]; intros i Hi Hn.
  - simpl. rewrite Z.add_0_r, Z.mod_small by exact Hi.
    rewrite list_lookup_insert_eq; [reflexivity|]. unfold in_range in *. lia.
  - assert (Hne : (i + Z.of_nat (S n)) mod buffer_size <> i).
    { pose proof (next_index_range 0) as Hr. unfold in_range in *.
      destruct (Z.ltb_spec (i + Z.of_nat (S n)) buffer_size).
      - rewrite Z.mod_small; lia.
      - rewrite <- (Z.mod_unique_pos _ _ 1 (i + Z.of_nat (S n) - buffer_size));
          lia. }
    assert (Hnext : (i + Z.of_nat (S n)) mod buffer_size
                    = (next_index i + Z.of_nat n) mod buffer_size).
    { rewrite (next_index_step _ Hi). unfold in_range in *.
      destruct (Z.eqb_spec (i + 1) buffer_size) as [He|He].
      - rewrite <- (Z.mod_unique_pos _ _ 1 (Z.of_nat n)); [|lia|lia].
        rewrite Z.mod_small; lia.
      - f_equal. lia. }
    change (live ?b i (S (S n))) with
      (match b !! Z.to_nat i with
       | Some x => x :: live b (next_index i) (S n) | None => [] end).
    change (live buf i (S n)) with
      (match buf !! Z.to_nat i with
       | Some x => x :: live buf (next_index i) n | None => [] end).
    rewrite list_lookup_insert_ne.
    2:{ pose proof (Z.mod_pos_bound (i + Z.of_nat (S n)) buffer_size).
        unfold in_range in *. lia. }
    destruct (lookup_lt_is_Some_2 buf (Z.to_nat i)) as [x Hx].
    { unfold in_range in *. lia. }
    rewrite Hx, Hnext, IH; [reflexivity|apply next_index_range|lia].
Qed.

Lemma distance_reaches a b :
  in_range a -> in_range b ->
  (a + Z.of_nat (Z.to_nat ((b - a) mod buffer_size))) mod buffer_size = b.
Proof.
  intros Ha Hb. rewrite (distance_spec _ _ Ha Hb). unfold in_range in *.
  destruct (Z.leb_spec a b).
  - rewrite Z.mod_small; lia.
  - symmetry. apply (Z.mod_unique_pos _ _ 1); lia.
Qed.

Lemma push_not_full item q :
  Inv q -> count q < Capacity ->
  exists q' tr,
    push item q = Done true q' tr /\ Inv q' /\
    count q' = count q + 1 /\
    contents q' = contents q ++ [item] /\
    head_ q' = head_ q /\ tail_ q' = next_index (tail_ q) /\
    cached_tail_ q' = cached_tail_ q.
Proof.
  destruct q as [buf h ct t ch]. intros HI Hroom.
  pose proof (next_index_range t) as Hnt.
  assert (Hcount : (next_index t - h) mod buffer_size
                   = (t - h) mod buffer_size + 1).
  { open_inv HI. rewrite (distance_spec _ _ Hh Hnt), (next_index_step _ Ht).
    arith. }
  assert (Hlive : forall ch',
            contents
              {| buffer_ := <[Z.to_nat t := item]> buf; head_ := h;
                 cached_tail_ := ct; tail_ := next_index t;
                 cached_head_ := ch' |}
            = contents (mkQueue buf h ct t ch) ++ [item]).
  { intros ch'. unfold contents, count. cbn. rewrite Hcount.
    destruct HI as (Hlen & (Hh & Ht & Hc) & _). cbn in *.
    unfold count in *; cbn in *.
    rewrite Z2Nat.inj_add, Nat.add_1_r by lia.
    rewrite <- (distance_reaches h t Hh Ht) at 1.
    apply live_insert_snoc; try assumption. arith. }
  assert (Hw : (0 <=? t) && (t <? Z.of_nat (length buf)) = true).
  { destruct HI as (Hlen & (_ & Ht & _) & _). cbn in *.
    unfold in_range in Ht. apply andb_true_intro.
    split; [apply Z.leb_le|apply Z.ltb_lt]; lia. }
  assert (Hgoal : forall ch',
            in_range ch' ->
            (t - h) mod buffer_size <= (t - ch') mod buffer_size ->
            next_index t <> ch' ->
            let q' := {| buffer_ := <[Z.to_nat t := item]> buf; head_ := h;
                         cached_tail_ := ct; tail_ := next_index t;
                         cached_head_ := ch' |} in
            Inv q' /\ count q' = count (mkQueue buf h ct t ch) + 1 /\
            contents q' = contents (mkQueue buf h ct t ch) ++ [item] /\
            head_ q' = h /\ tail_ q' = next_index t /\ cached_tail_ q' = ct).
  { intros ch' Hch' Hview Hne q'. subst q'.
    split; [|split; [exact Hcount|split; [apply Hlive|auto]]].
    unfold Inv, cursor_inv, cache_inv, count, producer_view, consumer_view.
    cbn. rewrite Hcount, length_insert.
    destruct HI as (Hlen & (Hh & Ht & Hc) & (_ & Hct & Hcv & _)).
    unfold count, consumer_view in *; cbn in *.
    rewrite (distance_spec _ _ Hch' Hnt).
    rewrite (distance_spec _ _ Hch' Ht) in Hview.
    rewrite (next_index_step _ Ht) in *.
    repeat split; try assumption; arith. }
  destruct HI as (_ & (Hh & Ht & _) & (Hch & _ & _ & Hpv)).
  unfold count, producer_view in Hroom, Hpv. cbn in Hh, Ht, Hch, Hpv, Hroom.
  step_monad.
  destruct (Z.eqb_spec (next_index t) ch) as [Heq|Hne]; cbn.
  - destruct (Z.eqb_spec (next_index t) h) as [Heq'|Hne']; cbn.
    + exfalso. rewrite (distance_spec _ _ Hh Ht) in Hroom.
      rewrite (next_index_step _ Ht) in Heq'. arith.
    + rewrite Hw. cbn. do 2 eexists. split; [reflexivity|].
      apply Hgoal; try assumption. lia.
  - rewrite Hw. cbn. do 2 eexists. split; [reflexivity|].
    apply Hgoal; assumption.
Qed.

Lemma pop_empty q :
  Inv q -> count q = 0 ->
  exists tr, pop q = Done None q tr.
Proof.
  destruct q as [buf h ct t ch]. intros HI Hempty.
  open_inv HI. step_monad.
  assert (ct = h) as -> by arith.
  assert (t = h) as -> by arith.
  rewrite Z.eqb_refl. cbn. rewrite Z.eqb_refl. eauto.
Qed.

Lemma pop_not_empty q :
  Inv q -> 0 < count q ->
  exists x q' tr,
    pop q = Done (Some x) q' tr /\ Inv q' /\
    count q' = count q - 1 /\
    contents q = x :: contents q' /\
    head_ q' = next_index (head_ q) /\ tail_ q' = tail_ q /\
    buffer_ q' = buffer_ q /\ cached_head_ q' = cached_head_ q.
Proof.
  destruct q as [buf h ct t ch]. intros HI Hsome.
  pose proof (next_index_range h) as Hnh.
  assert (Hcount : (t - next_index h) mod buffer_size
                   = (t - h) mod buffer_size - 1).
  { open_inv HI. rewrite (distance_spec _ _ Hnh Ht), (next_index_step _ Hh).
    arith. }
  destruct (lookup_lt_is_Some_2 buf (Z.to_nat h)) as [x Hx].
  { destruct HI as (Hlen & (Hh & _) & _). cbn in *. unfold in_range in Hh.
    lia. }
  assert (Hr : (0 <=? h) = true).
  { destruct HI as (_ & (Hh & _) & _). apply Z.leb_le, Hh. }
  assert (Hgoal : forall ct',
            in_range ct' ->
            (ct' - h) mod buffer_size <= (t - h) mod buffer_size ->
            h <> ct' ->
            let q' := {| buffer_ := buf; head_ := next_index h;
                         cached_tail_ := ct'; tail_ := t;
                         cached_head_ := ch |} in
            Inv q' /\ count q' = count (mkQueue buf h ct t ch) - 1 /\
            contents (mkQueue buf h ct t ch) = x :: contents q' /\
            head_ q' = next_index h /\ tail_ q' = t /\
            buffer_ q' = buf /\ cached_head_ q' = ch).
  { intros ct' Hct' Hview Hne q'. subst q'.
    split; [|split; [exact Hcount|split; [|auto]]].
    - unfold Inv, cursor_inv, cache_inv, count, producer_view, consumer_view.
      cbn. rewrite Hcount.
      destruct HI as (Hlen & (Hh & Ht & Hc) & (Hch & _ & _ & Hpv)).
      unfold count, producer_view in *; cbn in *.
      rewrite (distance_spec _ _ Hnh Hct').
      rewrite (distance_spec _ _ Hh Hct') in Hview.
      rewrite (distance_spec _ _ Hh Ht) in *.
      rewrite (next_index_step _ Hh) in *.
      repeat split; try assumption; arith.
    - unfold contents, count in *. cbn in *. rewrite Hcount.
      destruct (Z.to_nat ((t - h) mod buffer_size)) as [|n] eqn:En; [lia|].
      replace (Z.to_nat ((t - h) mod buffer_size - 1)) with n by lia.
      cbn. rewrite Hx. reflexivity. }
  destruct HI as (_ & (_ & Ht & _) & (_ & Hct & Hcv & _)).
  unfold count, consumer_view in Hsome, Hcv. cbn in Ht, Hct, Hcv, Hsome.
  step_monad.
  destruct (Z.eqb_spec h ct) as [Heq|Hne]; cbn.
  - destruct (Z.eqb_spec h t) as [Heq'|Hne']; cbn.
    + exfalso. subst t. rewrite Z.sub_diag, Z.mod_0_l in Hsome; [lia|].
      rewrite buffer_size_eq. destruct Hcap. lia.
    + rewrite Hr, Hx. cbn. do 3 eexists. split; [reflexivity|].
      apply Hgoal; try assumption. lia.
  - rewrite Hr, Hx. cbn. do 3 eexists. split; [reflexivity|].
    apply Hgoal; assumption.
Qed.

(** What a call does in an arbitrary state, whether or not the state can
    arise: the three ways through [push] and the three ways through [pop]. *)

Lemma push_cases item q b q' tr :
  push item q = Done b q' tr ->
  let t := tail_ q in
  let nt := next_index (tail_ q) in
  (b = false /\ q' = q /\ nt = cached_head_ q /\ nt = head_ q /\
   tr = [Load Tail memory_order_relaxed; Load Head memory_order_acquire])
  \/
  (b = true /\ nt = cached_head_ q /\ nt <> head_ q /\
   q' = {| buffer_ := <[Z.to_nat t := item]> (buffer_ q); head_ := head_ q;
           cached_tail_ := cached_tail_ q; tail_ := nt;
           cached_head_ := head_ q |} /\
   tr = [Load Tail memory_order_relaxed; Load Head memory_order_acquire;
         SlotWrite t; Store Tail memory_order_release nt])
  \/
  (b = true /\ nt <> cached_head_ q /\
   q' = {| buffer_ := <[Z.to_nat t := item]> (buffer_ q); head_ := head_ q;
           cached_tail_ := cached_tail_ q; tail_ := nt;
           cached_head_ := cached_head_ q |} /\
   tr = [Load Tail memory_order_relaxed; SlotWrite t;
         Store Tail memory_order_release nt]).
Proof.
  destruct q as [buf h ct t ch]. step_monad.
  destruct (Z.eqb_spec (next_index t) ch) as [Heq|Hne]; cbn.
  - destruct (Z.eqb_spec (next_index t) h) as [Heq'|Hne']; cbn.
    + intros [= <- <- <-]. left. subst ch. rewrite <- Heq'. auto.
    + destruct ((0 <=? t) && (t <? Z.of_nat (length buf))); cbn;
        [|discriminate].
      intros [= <- <- <-]. right. left. auto.
  - destruct ((0 <=? t) && (t <? Z.of_nat (length buf))); cbn;
      [|discriminate].
    intros [= <- <- <-]. right. right. auto.
Qed.

Lemma pop_cases q r q' tr :
  pop q = Done r q' tr ->
  let h := head_ q in
  (r = None /\ q' = q /\ h = cached_tail_ q /\ h = tail_ q /\
   tr = [Load Head memory_order_relaxed; Load Tail memory_order_acquire])
  \/
  (r = buffer_ q !! Z.to_nat h /\ is_Some r /\
   h = cached_tail_ q /\ h <> tail_ q /\
   q' = {| buffer_ := buffer_ q; head_ := next_index h;
           cached_tail_ := tail_ q; tail_ := tail_ q;
           cached_head_ := cached_head_ q |} /\
   tr = [Load Head memory_order_relaxed; Load Tail memory_order_acquire;
         SlotRead h; Store Head memory_order_release (next_index h)])
  \/
  (r = buffer_ q !! Z.to_nat h /\ is_Some r /\
   h <> cached_tail_ q /\
   q' = {| buffer_ := buffer_ q; head_ := next_index h;
           cached_tail_ := cached_tail_ q; tail_ := tail_ q;
           cached_head_ := cached_head_ q |} /\
   tr = [Load Head memory_order_relaxed; SlotRead h;
         Store Head memory_order_release (next_index h)]).
Proof.
  destruct q as [buf h ct t ch]. step_monad.
  destruct (Z.eqb_spec h ct) as [Heq|Hne]; cbn.
  - destruct (Z.eqb_spec h t) as [Heq'|Hne']; cbn.
    + intros [= <- <- <-]. left. subst ct. rewrite <- Heq'. auto.
    + destruct (0 <=? h); [|discriminate].
      destruct (buf !! Z.to_nat h) as [x|] eqn:Hx; cbn; [|discriminate].
      intros [= <- <- <-]. right. left. eauto 10.
  - destruct (0 <=? h); [|discriminate].
    destruct (buf !! Z.to_nat h) as [x|] eqn:Hx; cbn; [|discriminate].
    intros [= <- <- <-]. right. right. eauto 10.
Qed.

Lemma fresh_Inv init :
  Z.of_nat (length init) = buffer_size -> Inv (fresh init).
Proof.
  intros Hlen. pose proof buffer_size_eq. destruct Hcap.
  unfold Inv, cursor_inv, cache_inv, count, producer_view, consumer_view,
    in_range.
  cbn. rewrite Z.mod_0_l by lia. lia.
Qed.

Lemma count_zero_contents q : count q = 0 -> contents q = [].
Proof. unfold contents. intros ->. reflexivity. Qed.

Lemma count_bounds q : Inv q -> 0 <= count q <= Capacity.
Proof. intros (_ & (_ & _ & Hc) & _). exact Hc. Qed.

Lemma live_length buf i n :
  Z.of_nat (length buf) = buffer_size -> in_range i ->
  length (live buf i n) = n.
Proof.
  intros Hlen. revert i. induction n as [|n IH]; intros i Hi; [reflexivity|].
  cbn. destruct (lookup_lt_is_Some_2 buf (Z.to_nat i)) as [x Hx].
  { unfold in_range in Hi. lia. }
  rewrite Hx. cbn. f_equal. apply IH, next_index_range.
Qed.

Lemma contents_length q : Inv q -> Z.of_nat (length (contents q)) = count q.
Proof.
  intros (Hlen & (Hh & _ & Hc) & _). unfold contents.
  rewrite live_length by assumption. lia.
Qed.

(** ** Sequences of calls *)

Lemma perform_spec c q :
  Inv q ->
  exists e q' tr,
    perform c q = Done e q' tr /\ Inv q' /\
    contents q ++ accepted [e] = received [e] ++ contents q' /\
    (all_accepted [e] = true -> accepted [e] = offered [c]).
Proof.
  intros HI. destruct c as [item|]; unfold perform, mbind, M_bind, bind.
  - destruct (Z.eq_dec (count q) Capacity) as [Hfull|Hroom].
    + destruct (push_full item q HI Hfull) as (tr & ->). cbn.
      do 3 eexists. split; [reflexivity|]. rewrite app_nil_r.
      repeat split; [apply HI..|discriminate].
    + pose proof (count_bounds q HI).
      destruct (push_not_full item q HI) as (q' & tr & -> & HI' & _ & Hc & _);
        [lia|].
      cbn. do 3 eexists. split; [reflexivity|].
      split; [exact HI'|]. split; [symmetry; exact Hc|reflexivity].
  - destruct (Z.eq_dec (count q) 0) as [Hempty|Hsome].
    + destruct (pop_empty q HI Hempty) as (tr & ->). cbn.
      do 3 eexists. split; [reflexivity|]. rewrite app_nil_r.
      repeat split; apply HI.
    + pose proof (count_bounds q HI).
      destruct (pop_not_empty q HI) as (x & q' & tr & -> & HI' & _ & Hc & _);
        [lia|].
      cbn. do 3 eexists. split; [reflexivity|]. rewrite app_nil_r.
      split; [exact HI'|]. split; [exact Hc|reflexivity].
Qed.

Lemma accepted_cons e es : accepted (e :: es) = accepted [e] ++ accepted es.
Proof. unfold accepted. cbn. destruct e as [item [|]|r]; reflexivity. Qed.

Lemma received_cons e es : received (e :: es) = received [e] ++ received es.
Proof. unfold received. cbn. destruct e as [item ok|[x|]]; reflexivity. Qed.

Lemma offered_cons c cs : offered (c :: cs) = offered [c] ++ offered cs.
Proof. unfold offered. cbn. destruct c; reflexivity. Qed.

Lemma run_spec cs : forall q,
  Inv q ->
  exists es q' tr,
    run cs q = Done es q' tr /\ Inv q' /\
    contents q ++ accepted es = received es ++ contents q' /\
    (all_accepted es = true -> accepted es = offered cs).
Proof.
  induction cs as [|c cs IH]; intros q HI.
  - exists [], q, []. cbn. rewrite app_nil_r. auto.
  - destruct (perform_spec c q HI) as (e & q1 & tr1 & He & HI1 & Hc1 & Ho1).
    destruct (IH q1 HI1) as (es & q2 & tr2 & Hes & HI2 & Hc2 & Ho2).
    exists (e :: es), q2, (tr1 ++ tr2 ++ []).
    split; [|split; [exact HI2|split]].
    + change (run (c :: cs)) with
        (e ← perform c; es ← run cs; ret (e :: es)).
      unfold mbind, M_bind, bind. rewrite He, Hes. reflexivity.
    + rewrite accepted_cons, received_cons, app_assoc, Hc1.
      rewrite <- !app_assoc. f_equal. exact Hc2.
    + intros Hall. unfold all_accepted in Hall. cbn in Hall.
      apply andb_prop in Hall as [Ha1 Ha2].
      rewrite accepted_cons, offered_cons. f_equal.
      * apply Ho1. unfold all_accepted. cbn. rewrite andb_true_r. exact Ha1.
      * apply Ho2. exact Ha2.
Qed.

Lemma run_Inv cs q es q' tr :
  Inv q -> run cs q = Done es q' tr -> Inv q'.
Proof.
  intros HI Hrun. destruct (run_spec cs q HI) as (es1 & q1 & tr1 & H1 & HI1 & _).
  rewrite H1 in Hrun. injection Hrun as <- <- <-. exact HI1.
Qed.

Lemma drain_spec fuel : forall q,
  Inv q -> (Z.to_nat (count q) < fuel)%nat ->
  exists q' tr,
    drain fuel q = Done (Some (contents q)) q' tr /\ Inv q' /\ count q' = 0.
Proof.
  induction fuel as [|fuel IH]; intros q HI Hfuel; [lia|].
  change (drain (S fuel)) with
    (r ← pop;
     match r with
     | None => ret (Some [])
     | Some x => rest ← drain fuel; ret (cons x <$> rest)
     end).
  unfold mbind, M_bind, bind.
  pose proof (count_bounds q HI).
  destruct (Z.eq_dec (count q) 0) as [Hempty|Hsome].
  - destruct (pop_empty q HI Hempty) as (tr & ->). cbn.
    rewrite (count_zero_contents q Hempty). eauto.
  - destruct (pop_not_empty q HI) as (x & q1 & tr1 & -> & HI1 & Hn & Hc & _);
      [lia|].
    destruct (IH q1 HI1) as (q2 & tr2 & -> & HI2 & Hz); [lia|].
    cbn. rewrite Hc. eauto.
Qed.

Lemma push_all_room items : forall q,
  Inv q -> count q + Z.of_nat (length items) <= Capacity ->
  exists q' tr,
    push_all items q = Done (repeat true (length items)) q' tr /\ Inv q' /\
    count q' = count q + Z.of_nat (length items) /\
    contents q' = contents q ++ items.
Proof.
  induction items as [|item items IH]; intros q HI Hroom.
  - exists q, []. cbn. rewrite app_nil_r, Z.add_0_r. auto.
  - cbn [length] in Hroom.
    destruct (push_not_full item q HI) as (q1 & tr1 & H1 & HI1 & Hn1 & Hc1 & _);
      [lia|].
    destruct (IH q1 HI1) as (q2 & tr2 & H2 & HI2 & Hn2 & Hc2); [lia|].
    exists q2, (tr1 ++ tr2 ++ []).
    split; [|split; [exact HI2|split]].
    + change (push_all (item :: items)) with
        (ok ← push item; oks ← push_all items; ret (ok :: oks)).
      unfold mbind, M_bind, bind. rewrite H1, H2. reflexivity.
    + cbn [length]. lia.
    + rewrite Hc2, Hc1, <- app_assoc. reflexivity.
Qed.

Lemma push_all_Inv items : forall q,
  Inv q -> exists oks q' tr, push_all items q = Done oks q' tr /\ Inv q'.
Proof.
  induction items as [|item items IH]; intros q HI.
  - exists [], q, []. auto.
  - assert (exists ok q1 tr1, push item q = Done ok q1 tr1 /\ Inv q1)
      as (ok & q1 & tr1 & H1 & HI1).
    { pose proof (count_bounds q HI).
      destruct (Z.eq_dec (count q) Capacity) as [Hfull|Hroom].
      - destruct (push_full item q HI Hfull) as (tr & Hp). eauto.
      - destruct (push_not_full item q HI) as (q' & tr & Hp & HI' & _);
          [lia|eauto]. }
    destruct (IH q1 HI1) as (oks & q2 & tr2 & H2 & HI2).
    exists (ok :: oks), q2, (tr1 ++ tr2 ++ []). split; [|exact HI2].
    change (push_all (item :: items)) with
      (ok ← push item; oks ← push_all items; ret (ok :: oks)).
    unfold mbind, M_bind, bind. rewrite H1, H2. reflexivity.
Qed.

Lemma pop_n_spec n : forall q,
  Inv q -> Z.of_nat n <= count q ->
  exists xs q' tr,
    pop_n n q = Done (Some <$> xs) q' tr /\ Inv q' /\
    count q' = count q - Z.of_nat n /\
    contents q = xs ++ contents q'.
Proof.
  induction n as [|n IH]; intros q HI Hn.
  - exists [], q, []. cbn. rewrite Z.sub_0_r. auto.
  - destruct (pop_not_empty q HI) as (x & q1 & tr1 & H1 & HI1 & Hn1 & Hc1 & _);
      [lia|].
    destruct (IH q1 HI1) as (xs & q2 & tr2 & H2 & HI2 & Hn2 & Hc2); [lia|].
    exists (x :: xs), q2, (tr1 ++ tr2 ++ []).
    split; [|split; [exact HI2|split]].
    + change (pop_n (S n)) with (r ← pop; rs ← pop_n n; ret (r :: rs)).
      unfold mbind, M_bind, bind. rewrite H1, H2. reflexivity.
    + lia.
    + rewrite Hc1, Hc2. reflexivity.
Qed.

Lemma empty_eq q :
  empty q = Done (head_ q =? tail_ q) q
    [Load Head memory_order_acquire; Load Tail memory_order_acquire].
Proof. reflexivity. Qed.

Lemma full_eq q :
  full q = Done (next_index (tail_ q) =? head_ q) q
    [Load Tail memory_order_acquire; Load Head memory_order_acquire].
Proof. reflexivity. Qed.

(** ** The properties of the specification *)

(** C1 (no loss, no duplication, FIFO).  Start from a fresh queue of capacity
    at least one, make any sequence of [push] and [pop] calls, then let the
    consumer drain the queue by calling [pop] until it returns no value.
    The run and the drain are defined, the drain ends on an absent result
    within [Capacity + 1] calls, and the values received during the run
    followed by the values drained are exactly the values the queue accepted,
    in the same order, each once.  When every [push] succeeded, that is the
    sequence of values the producer pushed. *)
Theorem fifo_no_loss_no_duplication init cs fuel :
  Z.of_nat (length init) = buffer_size ->
  (Z.to_nat Capacity < fuel)%nat ->
  exists es q tr rest q' tr',
    run cs (fresh init) = Done es q tr /\
    drain fuel q = Done (Some rest) q' tr' /\
    received es ++ rest = accepted es /\
    (all_accepted es = true -> received es ++ rest = offered cs).
Proof.
  intros Hlen Hfuel.
  destruct (run_spec cs (fresh init) (fresh_Inv init Hlen))
    as (es & q & tr & Hrun & HI & Hc & Ho).
  pose proof (count_bounds q HI).
  destruct (drain_spec fuel q HI) as (q' & tr' & Hd & _); [lia|].
  exists es, q, tr, (contents q), q', tr'.
  rewrite (count_zero_contents (fresh init)) in Hc by reflexivity.
  cbn in Hc. repeat split; try assumption; [congruence|].
  intros Hall. rewrite <- (Ho Hall). congruence.
Qed.

(** C2 (capacity boundary).  On a fresh queue of capacity [C >= 1], [C]
    consecutive [push] calls all return [true] and the next one returns
    [false], leaving the queue as it was; after any number of these pushes
    the queue holds at most [C] items; [C] calls of [pop] then return the
    [C] items in order, after which [full] returns [false] and [push]
    returns [true] again. *)
Theorem capacity_boundary init items extra :
  Z.of_nat (length init) = buffer_size ->
  Z.of_nat (length items) = Capacity ->
  exists q1 tr1 tr2 q2 tr3 tr4 q3 tr5,
    push_all items (fresh init) = Done (repeat true (length items)) q1 tr1 /\
    push extra q1 = Done false q1 tr2 /\
    (forall k, exists oks qk trk,
        push_all (take k (items ++ [extra])) (fresh init) = Done oks qk trk /\
        Z.of_nat (length (contents qk)) = count qk /\
        count qk <= Capacity) /\
    pop_n (length items) q1 = Done (Some <$> items) q2 tr3 /\
    full q2 = Done false q2 tr4 /\
    push extra q2 = Done true q3 tr5.
Proof.
  intros Hlen Hitems.
  pose proof (fresh_Inv init Hlen) as HI0.
  assert (H0 : count (fresh init) = 0) by reflexivity.
  destruct (push_all_room items (fresh init) HI0)
    as (q1 & tr1 & Hp1 & HI1 & Hn1 & Hc1); [lia|].
  rewrite (count_zero_contents _ H0) in Hc1. cbn in Hc1.
  destruct (push_full extra q1 HI1) as (tr2 & Hp2); [lia|].
  destruct (pop_n_spec (length items) q1 HI1)
    as (xs & q2 & tr3 & Hp3 & HI2 & Hn2 & Hc2); [lia|].
  assert (Hz : count q2 = 0) by lia.
  rewrite (count_zero_contents _ Hz), app_nil_r, Hc1 in Hc2. subst xs.
  destruct (push_not_full extra q2 HI2) as (q3 & tr5 & Hp5 & _).
  { destruct Hcap. lia. }
  exists q1, tr1, tr2, q2, tr3,
    [Load Tail memory_order_acquire; Load Head memory_order_acquire], q3, tr5.
  repeat split; try assumption.
  - intros k.
    destruct (push_all_Inv (take k (items ++ [extra])) (fresh init) HI0)
      as (oks & qk & trk & Hk & HIk).
    exists oks, qk, trk. split; [exact Hk|].
    split; [apply contents_length, HIk|apply (count_bounds qk HIk)].
  - rewrite full_eq. f_equal.
    destruct HI2 as (_ & (Hh & Ht & _) & _). unfold count in Hz.
    rewrite (distance_spec _ _ Hh Ht) in Hz.
    rewrite (next_index_step _ Ht). arith.
Qed.

(** C3 (empty boundary).  [pop] on a fresh queue returns no value; and in
    every state reached from a fresh queue by [push] and [pop] calls in which
    [head == tail], [pop] returns no value: it reads no slot, so nothing
    stale or default comes back, and the queue is left as it was.  (In such a
    state [cached_tail_] equals [head_], by [cache_inv].) *)
Theorem pop_on_empty_is_absent init :
  Z.of_nat (length init) = buffer_size ->
  pop (fresh init) = Done None (fresh init)
    [Load Head memory_order_relaxed; Load Tail memory_order_acquire] /\
  forall cs es q tr,
    run cs (fresh init) = Done es q tr ->
    head_ q = tail_ q ->
    pop q = Done None q
      [Load Head memory_order_relaxed; Load Tail memory_order_acquire].
Proof.
  intros Hlen. split; [reflexivity|].
  intros cs es q tr Hrun Heq.
  pose proof (run_Inv _ _ _ _ _ (fresh_Inv init Hlen) Hrun) as HI.
  destruct (pop_empty q HI) as (tr' & Hp).
  { unfold count. rewrite Heq, Z.sub_diag. apply Z.mod_0_l.
    rewrite buffer_size_eq. destruct Hcap. lia. }
  destruct (pop_cases _ _ _ _ Hp) as [(_ & _ & _ & _ & ->)|[H|H]].
  - exact Hp.
  - destruct H as (Hr & [x Hx] & _). discriminate.
  - destruct H as (Hr & [x Hx] & _). discriminate.
Qed.

(** C4 (failed calls change nothing).  In any state, when [push] returns
    [false] the object afterwards equals the object before, field by field
    (buffer, both cursors, both shadow copies), and the call made two atomic
    loads, no atomic store and no slot write; likewise when [pop] returns no
    value.  The refresh of the shadow copy on that path assigns the value
    the shadow copy already had. *)
Theorem failed_call_leaves_state q :
  (forall item q' tr,
      push item q = Done false q' tr ->
      q' = q /\
      tr = [Load Tail memory_order_relaxed; Load Head memory_order_acquire])
  /\
  (forall q' tr,
      pop q = Done None q' tr ->
      q' = q /\
      tr = [Load Head memory_order_relaxed; Load Tail memory_order_acquire]).
Proof.
  split.
  - intros item q' tr Hp.
    destruct (push_cases _ _ _ _ _ Hp)
      as [(_ & -> & _ & _ & ->)|[(Hb & _)|(Hb & _)]];
      [auto|discriminate..].
  - intros q' tr Hp.
    destruct (pop_cases _ _ _ _ Hp)
      as [(_ & -> & _ & _ & ->)|[(Hr & [x Hx] & _)|(Hr & [x Hx] & _)]];
      [auto|congruence..].
Qed.

(** C5 (cursor invariant).  A fresh queue satisfies [0 <= head < N+1],
    [0 <= tail < N+1] and [0 <= (tail - head) mod (N+1) <= N]; every [push]
    and every [pop] preserves it; every sequence of calls on a fresh queue is
    defined and ends in a state that satisfies it. *)
Theorem cursor_invariant init :
  Z.of_nat (length init) = buffer_size ->
  cursor_inv (fresh init) /\
  (forall q item b q' tr,
      cursor_inv q -> push item q = Done b q' tr -> cursor_inv q') /\
  (forall q r q' tr,
      cursor_inv q -> pop q = Done r q' tr -> cursor_inv q') /\
  (forall cs, exists es q tr,
      run cs (fresh init) = Done es q tr /\ cursor_inv q).
Proof.
  intros Hlen.
  assert (Hmk : forall q, in_range (head_ q) -> in_range (tail_ q) ->
                          cursor_inv q).
  { intros q Hh Ht. split; [exact Hh|split; [exact Ht|]].
    pose proof (Z.mod_pos_bound (tail_ q - head_ q) buffer_size) as Hb.
    unfold count. rewrite buffer_size_eq in *. destruct Hcap. lia. }
  split; [apply (fresh_Inv init Hlen)|].
  split; [|split].
  - intros q item b q' tr (Hh & Ht & _) Hp.
    destruct (push_cases _ _ _ _ _ Hp)
      as [(_ & -> & _)|[(_ & _ & _ & -> & _)|(_ & _ & -> & _)]];
      apply Hmk; cbn; auto using next_index_range.
  - intros q r q' tr (Hh & Ht & _) Hp.
    destruct (pop_cases _ _ _ _ Hp)
      as [(_ & -> & _)|[(_ & _ & _ & _ & -> & _)|(_ & _ & _ & -> & _)]];
      apply Hmk; cbn; auto using next_index_range.
  - intros cs.
    destruct (run_spec cs (fresh init) (fresh_Inv init Hlen))
      as (es & q & tr & Hrun & HI & _).
    exists es, q, tr. split; [exact Hrun|apply HI].
Qed.

(** C6 ([empty] and [full]).  In every state whose [tail] is a valid index,
    [empty] returns [true] exactly when [head == tail] and [full] returns
    [true] exactly when [(tail + 1) mod (N+1) == head]; each leaves the
    object unchanged and does nothing but one acquire load of [head] and one
    acquire load of [tail]. *)
Theorem empty_full_meaning q :
  in_range (tail_ q) ->
  exists be bf tre trf,
    empty q = Done be q tre /\ full q = Done bf q trf /\
    (be = true <-> head_ q = tail_ q) /\
    (bf = true <-> (tail_ q + 1) mod (Capacity + 1) = head_ q) /\
    tre ≡ₚ [Load Head memory_order_acquire; Load Tail memory_order_acquire] /\
    trf ≡ₚ [Load Head memory_order_acquire; Load Tail memory_order_acquire].
Proof.
  intros Ht. do 4 eexists.
  split; [apply empty_eq|]. split; [apply full_eq|].
  split; [apply Z.eqb_eq|]. split; [|split; [reflexivity|apply Permutation_swap]].
  rewrite Z.eqb_eq. unfold next_index, wrap.
  pose proof buffer_size_eq as Hbs. destruct Hcap. unfold in_range in Ht.
  rewrite (Z.mod_small (tail_ q + 1)) by lia. rewrite Hbs. reflexivity.
Qed.

(** C7 (empty and full exclude each other).  For every capacity [C >= 1],
    the single-slot queue included, no state has both [head == tail] and
    [(tail + 1) mod (N+1) == head], and in no state do [empty] and [full]
    both return [true]. *)
Theorem empty_full_exclusive q :
  ~ (head_ q = tail_ q /\ (tail_ q + 1) mod (Capacity + 1) = head_ q) /\
  forall be bf qe qf tre trf,
    empty q = Done be qe tre -> full q = Done bf qf trf ->
    be && bf = false.
Proof.
  pose proof buffer_size_eq as Hbs. destruct Hcap as [H1 H2].
  assert (Hmod : forall t, (t + 1) mod (Capacity + 1) <> t).
  { intros t Heq.
    pose proof (Z.mod_pos_bound (t + 1) (Capacity + 1)) as Hb.
    destruct (Z.eq_dec (t + 1) (Capacity + 1)) as [He|Hne].
    - rewrite He, Z_mod_same_full in Heq. lia.
    - rewrite Z.mod_small in Heq; lia. }
  split.
  - intros [Heq Hf]. rewrite Heq in Hf. exact (Hmod _ Hf).
  - intros be bf qe qf tre trf.
    rewrite empty_eq, full_eq. intros [= <- _ _] [= <- _ _].
    destruct (Z.eqb_spec (head_ q) (tail_ q)) as [Heq|]; [|reflexivity].
    destruct (Z.eqb_spec (next_index (tail_ q)) (head_ q)) as [Hf|];
      [|reflexivity].
    exfalso. rewrite Heq in Hf.
    pose proof (next_index_range (tail_ q)) as Hr. rewrite Hf in Hr.
    rewrite (next_index_step _ Hr) in Hf. unfold in_range in Hr.
    destruct (Z.eqb_spec (tail_ q + 1) buffer_size); lia.
Qed.

(** C8 (the shadow copies are conservative).  In every state reached from a
    fresh queue by [push] and [pop] calls,
    [(tail - cached_head) mod (N+1) >= (tail - head) mod (N+1)] and
    [(cached_tail - head) mod (N+1) <= (tail - head) mod (N+1)].  Hence when
    [next_index(tail) != cached_head] the queue is not full and [push]
    succeeds with every item held still held, the new one behind them; and
    when [head != cached_tail] the queue is not empty and [pop] returns the
    oldest item held. *)
Theorem shadow_copies_conservative init cs es q tr :
  Z.of_nat (length init) = buffer_size ->
  run cs (fresh init) = Done es q tr ->
  producer_view q >= count q /\
  consumer_view q <= count q /\
  (next_index (tail_ q) <> cached_head_ q ->
   count q < Capacity /\
   forall item, exists q',
     push item q = Done true q'
       [Load Tail memory_order_relaxed; SlotWrite (tail_ q);
        Store Tail memory_order_release (next_index (tail_ q))] /\
     contents q' = contents q ++ [item]) /\
  (head_ q <> cached_tail_ q ->
   0 < count q /\
   exists x q',
     pop q = Done (Some x) q'
       [Load Head memory_order_relaxed; SlotRead (head_ q);
        Store Head memory_order_release (next_index (head_ q))] /\
     contents q = x :: contents q').
Proof.
  intros Hlen Hrun.
  pose proof (run_Inv _ _ _ _ _ (fresh_Inv init Hlen) Hrun) as HI.
  pose proof HI as (_ & (Hh & Ht & Hc) & (Hch & Hct & Hcv & Hpv)).
  split; [lia|]. split; [lia|]. split.
  - intros Hne.
    assert (Hroom : count q < Capacity).
    { unfold count, producer_view in *.
      rewrite (distance_spec _ _ Hh Ht) in *.
      rewrite (distance_spec _ _ Hch Ht) in *.
      rewrite (next_index_step _ Ht) in Hne. arith. }
    split; [exact Hroom|]. intros item.
    destruct (push_not_full item q HI Hroom) as (q' & tr' & Hp & _ & _ & Hcs & _).
    exists q'. split; [|exact Hcs].
    destruct (push_cases _ _ _ _ _ Hp)
      as [(Hb & _)|[(_ & He & _)|(_ & _ & _ & <-)]];
      [discriminate|contradiction|exact Hp].
  - intros Hne.
    assert (Hsome : 0 < count q).
    { unfold count, consumer_view in *.
      rewrite (distance_spec _ _ Hh Ht) in *.
      rewrite (distance_spec _ _ Hh Hct) in *. arith. }
    split; [exact Hsome|].
    destruct (pop_not_empty q HI Hsome) as (x & q' & tr' & Hp & _ & _ & Hcs & _).
    exists x, q'. split; [|exact Hcs].
    destruct (pop_cases _ _ _ _ Hp)
      as [(Hr & _)|[(_ & _ & He & _)|(_ & _ & _ & _ & <-)]];
      [discriminate|contradiction|exact Hp].
Qed.

(** C9 (bounded, non-blocking calls).  [push] and [pop] are defined without
    recursion; in every state reached from a fresh queue each of them
    returns, after at most four memory accesses (at most two atomic loads,
    one slot access and one atomic store), either a success or the full or
    empty result, in which case the object is unchanged. *)
Theorem push_pop_return_at_once init cs es q tr :
  Z.of_nat (length init) = buffer_size ->
  run cs (fresh init) = Done es q tr ->
  (forall item, exists b q' tr',
      push item q = Done b q' tr' /\
      (length tr' <= 4)%nat /\
      (length (filter (fun a => is_atomic_load a = true) tr') <= 2)%nat /\
      (length (filter (fun a => is_atomic_store a = true) tr') <= 1)%nat /\
      (length (filter (fun a => is_slot_access a = true) tr') <= 1)%nat /\
      (b = false -> q' = q)) /\
  (exists r q' tr',
      pop q = Done r q' tr' /\
      (length tr' <= 4)%nat /\
      (length (filter (fun a => is_atomic_load a = true) tr') <= 2)%nat /\
      (length (filter (fun a => is_atomic_store a = true) tr') <= 1)%nat /\
      (length (filter (fun a => is_slot_access a = true) tr') <= 1)%nat /\
      (r = None -> q' = q)).
Proof.
  intros Hlen Hrun.
  pose proof (run_Inv _ _ _ _ _ (fresh_Inv init Hlen) Hrun) as HI.
  split.
  - intros item.
    destruct (perform_spec (Push item) q HI) as (e & q' & tr' & Hp & _).
    unfold perform, mbind, M_bind, bind in Hp.
    destruct (push item q) as [|b q1 tr1] eqn:Hpush; [discriminate|].
    exists b, q1, tr1. split; [reflexivity|].
    destruct (push_cases _ _ _ _ _ Hpush)
      as [(_ & -> & _ & _ & ->)|[(-> & _ & _ & _ & ->)|(-> & _ & _ & ->)]];
      cbn; repeat split; auto; discriminate.
  - destruct (perform_spec Pop q HI) as (e & q' & tr' & Hp & _).
    unfold perform, mbind, M_bind, bind in Hp.
    destruct (pop q) as [|r q1 tr1] eqn:Hpop; [discriminate|].
    exists r, q1, tr1. split; [reflexivity|].
    destruct (pop_cases _ _ _ _ Hpop)
      as [(_ & -> & _ & _ & ->)|[(Hr & [x Hx] & _ & _ & _ & ->)
                                |(Hr & [x Hx] & _ & _ & ->)]];
      cbn; repeat split; auto; congruence.
Qed.

(** ** Further properties of the member functions *)

Lemma next_index_mod i :
  in_range i -> next_index i = (i + 1) mod buffer_size.
Proof.
  intros Hi. unfold next_index, wrap. f_equal.
  pose proof buffer_size_eq. destruct Hcap. unfold in_range in Hi.
  apply Z.mod_small. lia.
Qed.

Lemma buffer_size_pos : 0 < buffer_size.
Proof. rewrite buffer_size_eq. destruct Hcap. lia. Qed.

(** X1 (index wrap-around).  Starting from a valid index, [k] applications
    of [next_index] give [(i + k) mod (N+1)]; in particular [N+1]
    applications come back to the index they started from. *)
Theorem next_index_iterated i k :
  in_range i ->
  Nat.iter k next_index i = (i + Z.of_nat k) mod (Capacity + 1) /\
  Nat.iter (Z.to_nat (Capacity + 1)) next_index i = i.
Proof.
  intros Hi. pose proof buffer_size_pos as Hpos.
  assert (Hk : forall n,
             Nat.iter n next_index i = (i + Z.of_nat n) mod buffer_size).
  { induction n as [|n IH].
    - cbn. rewrite Z.add_0_r. symmetry. apply Z.mod_small, Hi.
    - rewrite Nat.iter_succ, IH, next_index_mod.
      + rewrite Zplus_mod_idemp_l. f_equal. lia.
      + apply Z.mod_pos_bound, Hpos. }
  rewrite <- buffer_size_eq. split; [apply Hk|].
  rewrite Hk, Z2Nat.id by lia.
  rewrite <- (Z.mul_1_l buffer_size) at 1.
  rewrite Z.mod_add by lia. apply Z.mod_small, Hi.
Qed.

(** X2 (each side writes only what it owns).  In any state, [push] leaves
    [head_], [cached_tail_] and every slot other than [buffer_[tail]] as they
    were and keeps the length of the array; [pop] leaves [tail_],
    [cached_head_] and the whole array as they were. *)
Theorem producer_consumer_ownership q :
  (forall item b q' tr,
      push item q = Done b q' tr ->
      head_ q' = head_ q /\ cached_tail_ q' = cached_tail_ q /\
      length (buffer_ q') = length (buffer_ q) /\
      forall j, j <> Z.to_nat (tail_ q) ->
                buffer_ q' !! j = buffer_ q !! j) /\
  (forall r q' tr,
      pop q = Done r q' tr ->
      tail_ q' = tail_ q /\ cached_head_ q' = cached_head_ q /\
      buffer_ q' = buffer_ q).
Proof.
  split.
  - intros item b q' tr Hp.
    destruct (push_cases _ _ _ _ _ Hp)
      as [(_ & -> & _)|[(_ & _ & _ & -> & _)|(_ & _ & -> & _)]]; cbn;
      repeat split; auto using length_insert;
      intros j Hj; apply list_lookup_insert_ne; congruence.
  - intros r q' tr Hp.
    destruct (pop_cases _ _ _ _ Hp)
      as [(_ & -> & _)|[(_ & _ & _ & _ & -> & _)|(_ & _ & _ & -> & _)]];
      cbn; auto.
Qed.

(** X3 (publication order).  In any state, a successful [push] ends with the
    write of [buffer_[tail]] followed by the release store of the new
    [tail_], and everything before that is an atomic load; a successful [pop]
    ends with the read of [buffer_[head]] followed by the release store of
    the new [head_], and everything before that is an atomic load. *)
Theorem slot_access_then_release q :
  (forall item q' tr,
      push item q = Done true q' tr ->
      exists pre,
        tr = pre ++ [SlotWrite (tail_ q);
                     Store Tail memory_order_release (tail_ q')] /\
        Forall (fun a => is_atomic_load a = true) pre) /\
  (forall x q' tr,
      pop q = Done (Some x) q' tr ->
      exists pre,
        tr = pre ++ [SlotRead (head_ q);
                     Store Head memory_order_release (head_ q')] /\
        Forall (fun a => is_atomic_load a = true) pre).
Proof.
  split.
  - intros item q' tr Hp.
    destruct (push_cases _ _ _ _ _ Hp)
      as [(Hb & _)|[(_ & _ & _ & -> & ->)|(_ & _ & -> & ->)]];
      [discriminate| |].
    + exists [Load Tail memory_order_relaxed; Load Head memory_order_acquire].
      split; [reflexivity|]. repeat constructor.
    + exists [Load Tail memory_order_relaxed].
      split; [reflexivity|]. repeat constructor.
  - intros x q' tr Hp.
    destruct (pop_cases _ _ _ _ Hp)
      as [(Hr & _)|[(_ & _ & _ & _ & -> & ->)|(_ & _ & _ & -> & ->)]];
      [discriminate| |].
    + exists [Load Head memory_order_relaxed; Load Tail memory_order_acquire].
      split; [reflexivity|]. repeat constructor.
    + exists [Load Head memory_order_relaxed].
      split; [reflexivity|]. repeat constructor.
Qed.

Lemma push_refines item q :
  Inv q ->
  exists q' tr,
    push item q = Done (count q <? Capacity) q' tr /\ Inv q' /\
    contents q' =
      if count q <? Capacity then contents q ++ [item] else contents q.
Proof.
  intros HI. pose proof (count_bounds q HI) as Hb.
  destruct (Z.ltb_spec (count q) Capacity) as [Hroom|Hfull].
  - destruct (push_not_full item q HI Hroom)
      as (q' & tr & Hp & HI' & _ & Hc & _). eauto.
  - destruct (push_full item q HI) as (tr & Hp); [lia|]. eauto.
Qed.

Lemma pop_refines q :
  Inv q ->
  exists q' tr,
    pop q = Done (head (contents q)) q' tr /\ Inv q' /\
    contents q' = tail (contents q).
Proof.
  intros HI. pose proof (count_bounds q HI) as Hb.
  destruct (Z.eq_dec (count q) 0) as [Hempty|Hsome].
  - destruct (pop_empty q HI Hempty) as (tr & Hp).
    pose proof (count_zero_contents q Hempty) as Hc. rewrite Hc. cbn.
    eauto.
  - destruct (pop_not_empty q HI)
      as (x & q' & tr & Hp & HI' & _ & Hc & _); [lia|].
    rewrite Hc. cbn. eauto.
Qed.

(** X4 (bounded FIFO).  In every state reached from a fresh queue, with
    [contents] the items pushed and not yet popped, oldest first: [push]
    returns [true] exactly when fewer than [Capacity] items are held and then
    appends the item, otherwise holds the same items; [pop] returns the
    oldest item, if any, and holds the remaining ones. *)
Theorem refines_bounded_fifo init cs es q tr :
  Z.of_nat (length init) = buffer_size ->
  run cs (fresh init) = Done es q tr ->
  (forall item, exists q' tr',
      push item q
      = Done (Z.of_nat (length (contents q)) <? Capacity) q' tr' /\
      contents q' =
        if Z.of_nat (length (contents q)) <? Capacity
        then contents q ++ [item] else contents q) /\
  (exists q' tr',
      pop q = Done (head (contents q)) q' tr' /\
      contents q' = tail (contents q)).
Proof.
  intros Hlen Hrun.
  pose proof (run_Inv _ _ _ _ _ (fresh_Inv init Hlen) Hrun) as HI.
  rewrite (contents_length q HI). split.
  - intros item.
    destruct (push_refines item q HI) as (q' & tr' & Hp & _ & Hc). eauto.
  - destruct (pop_refines q HI) as (q' & tr' & Hp & _ & Hc). eauto.
Qed.

Lemma empty_iff_count q : Inv q -> head_ q = tail_ q <-> count q = 0.
Proof.
  intros (_ & (Hh & Ht & _) & _). unfold count.
  rewrite (distance_spec _ _ Hh Ht). arith.
Qed.

Lemma full_iff_count q :
  Inv q -> next_index (tail_ q) = head_ q <-> count q = Capacity.
Proof.
  intros (_ & (Hh & Ht & _) & _). unfold count.
  rewrite (distance_spec _ _ Hh Ht), (next_index_step _ Ht). arith.
Qed.

(** X5 (the observers agree with the calls).  In every state reached from a
    fresh queue, [empty] returns [true] exactly when no item is held and
    [full] exactly when [Capacity] items are held; [push] returns the
    negation of what [full] returns, and [pop] returns no value exactly when
    [empty] returns [true]. *)
Theorem observers_agree_with_calls init cs es q tr :
  Z.of_nat (length init) = buffer_size ->
  run cs (fresh init) = Done es q tr ->
  exists be bf tre trf,
    empty q = Done be q tre /\ full q = Done bf q trf /\
    (be = true <-> contents q = []) /\
    (bf = true <-> Z.of_nat (length (contents q)) = Capacity) /\
    (forall item, exists q' tr', push item q = Done (negb bf) q' tr') /\
    (exists r q' tr', pop q = Done r q' tr' /\ (r = None <-> be = true)).
Proof.
  intros Hlen Hrun.
  pose proof (run_Inv _ _ _ _ _ (fresh_Inv init Hlen) Hrun) as HI.
  pose proof (contents_length q HI) as Hcl.
  pose proof (count_bounds q HI) as Hb.
  pose proof (empty_iff_count q HI) as He.
  pose proof (full_iff_count q HI) as Hf.
  do 4 eexists. split; [apply empty_eq|]. split; [apply full_eq|].
  rewrite !Z.eqb_eq, He, Hf, Hcl.
  assert (Hnil : contents q = [] <-> count q = 0).
  { rewrite <- Hcl. destruct (contents q); cbn; split; intros; try lia;
      try reflexivity; discriminate. }
  split; [symmetry; exact Hnil|]. split; [reflexivity|]. split.
  - intros item.
    destruct (push_refines item q HI) as (q' & tr' & Hp & _).
    exists q', tr'. rewrite Hp. f_equal.
    destruct (Z.ltb_spec (count q) Capacity);
      destruct (Z.eqb_spec (next_index (tail_ q)) (head_ q)) as [E|E];
      try reflexivity; [apply Hf in E; lia|exfalso; apply E, Hf; lia].
  - destruct (pop_refines q HI) as (q' & tr' & Hp & _).
    exists (head (contents q)), q', tr'. split; [exact Hp|].
    rewrite ?Z.eqb_eq, ?He, <- Hnil. destruct (contents q); cbn; split;
      intros; try reflexivity; discriminate.
Qed.

Lemma perform_cursors c q e q' tr :
  Inv q -> perform c q = Done e q' tr ->
  tail_ q' = (tail_ q + Z.of_nat (length (accepted [e]))) mod buffer_size /\
  head_ q' = (head_ q + Z.of_nat (length (received [e]))) mod buffer_size.
Proof.
  intros (_ & (Hh & Ht & _) & _) Hp.
  pose proof (Z.mod_small _ _ Hh) as Hhs.
  pose proof (Z.mod_small _ _ Ht) as Hts.
  destruct c as [item|]; unfold perform, mbind, M_bind, bind in Hp.
  - destruct (push item q) as [|b q1 tr1] eqn:Hpush; [discriminate|].
    cbn in Hp. injection Hp as <- <- _.
    destruct (push_cases _ _ _ _ _ Hpush)
      as [(-> & -> & _)|[(-> & _ & _ & -> & _)|(-> & _ & -> & _)]]; cbn;
      rewrite ?Z.add_0_r, ?next_index_mod by assumption; auto.
  - destruct (pop q) as [|r q1 tr1] eqn:Hpop; [discriminate|].
    cbn in Hp. injection Hp as <- <- _.
    destruct (pop_cases _ _ _ _ Hpop)
      as [(-> & -> & _)|[(Hr & [x Hx] & _ & _ & -> & _)
                        |(Hr & [x Hx] & _ & -> & _)]]; cbn;
      rewrite ?Hx; cbn;
      rewrite ?Z.add_0_r, ?next_index_mod by assumption; auto.
Qed.

Lemma run_cursors cs : forall q es q' tr,
  Inv q -> run cs q = Done es q' tr ->
  tail_ q' = (tail_ q + Z.of_nat (length (accepted es))) mod buffer_size /\
  head_ q' = (head_ q + Z.of_nat (length (received es))) mod buffer_size.
Proof.
  induction cs as [|c cs IH]; intros q es q' tr HI Hrun.
  - cbn in Hrun. injection Hrun as <- <- _.
    destruct HI as (_ & (Hh & Ht & _) & _). cbn.
    rewrite !Z.add_0_r, !Z.mod_small by assumption. auto.
  - destruct (perform_spec c q HI) as (e & q1 & tr1 & He & HI1 & _).
    destruct (run_spec cs q1 HI1) as (es1 & q2 & tr2 & Hes & _).
    change (run (c :: cs)) with
      (e ← perform c; es ← run cs; ret (e :: es)) in Hrun.
    unfold mbind, M_bind, bind in Hrun. rewrite He, Hes in Hrun.
    cbn in Hrun. injection Hrun as <- <- _.
    destruct (perform_cursors _ _ _ _ _ HI He) as [Ht1 Hh1].
    destruct (IH _ _ _ _ HI1 Hes) as [Ht2 Hh2].
    rewrite accepted_cons, received_cons, !length_app, !Nat2Z.inj_add.
    rewrite Ht2, Hh2, Ht1, Hh1, !Zplus_mod_idemp_l, !Z.add_assoc. auto.
Qed.

(** X6 (the cursors count the calls).  After any sequence of calls on a fresh
    queue, [tail_] is the number of accepted pushes modulo [N+1], [head_] is
    the number of items popped modulo [N+1], and the number of items held is
    the difference of the two numbers. *)
Theorem cursors_count_calls init cs es q tr :
  Z.of_nat (length init) = buffer_size ->
  run cs (fresh init) = Done es q tr ->
  tail_ q = Z.of_nat (length (accepted es)) mod (Capacity + 1) /\
  head_ q = Z.of_nat (length (received es)) mod (Capacity + 1) /\
  Z.of_nat (length (contents q))
  = Z.of_nat (length (accepted es)) - Z.of_nat (length (received es)).
Proof.
  intros Hlen Hrun. pose proof (fresh_Inv init Hlen) as HI0.
  destruct (run_cursors cs _ _ _ _ HI0 Hrun) as [Ht Hh].
  rewrite <- buffer_size_eq. split; [exact Ht|]. split; [exact Hh|].
  destruct (run_spec cs _ HI0) as (es1 & q1 & tr1 & H1 & _ & Hc & _).
  rewrite H1 in Hrun. injection Hrun as <- <- _.
  rewrite (count_zero_contents (fresh init)) in Hc by reflexivity.
  cbn in Hc. apply (f_equal length) in Hc. rewrite length_app in Hc. lia.
Qed.

Lemma perform_push item q b q' tr :
  push item q = Done b q' tr ->
  perform (Push item) q = Done (Pushed item b) q' (tr ++ []).
Proof.
  intros Hp. unfold perform, mbind, M_bind, bind. rewrite Hp. reflexivity.
Qed.

Lemma perform_pop q r q' tr :
  pop q = Done r q' tr ->
  perform Pop q = Done (Popped r) q' (tr ++ []).
Proof.
  intros Hp. unfold perform, mbind, M_bind, bind. rewrite Hp. reflexivity.
Qed.

Lemma run_cons c cs q e q1 tr1 es q2 tr2 :
  perform c q = Done e q1 tr1 -> run cs q1 = Done es q2 tr2 ->
  run (c :: cs) q = Done (e :: es) q2 (tr1 ++ tr2 ++ []).
Proof.
  intros H1 H2.
  change (run (c :: cs)) with (e ← perform c; es ← run cs; ret (e :: es)).
  unfold mbind, M_bind, bind. rewrite H1, H2. reflexivity.
Qed.

Lemma push_when_full item q :
  next_index (tail_ q) = cached_head_ q -> next_index (tail_ q) = head_ q ->
  push item q
  = Done false q
      [Load Tail memory_order_relaxed; Load Head memory_order_acquire].
Proof.
  destruct q as [buf h ct t ch]. cbn. intros <- <-. step_monad.
  rewrite Z.eqb_refl. cbn. rewrite Z.eqb_refl. reflexivity.
Qed.

Lemma pop_when_empty q :
  head_ q = cached_tail_ q -> head_ q = tail_ q ->
  pop q
  = Done None q
      [Load Head memory_order_relaxed; Load Tail memory_order_acquire].
Proof.
  destruct q as [buf h ct t ch]. cbn. intros <- <-. step_monad.
  rewrite Z.eqb_refl. cbn. rewrite Z.eqb_refl. reflexivity.
Qed.

End Theory.

(** ** The degenerate instantiation [Capacity = 0]

    Nothing in the header rejects a zero capacity: [buffer_size] is then 1
    and [next_index] is constantly 0. *)

Section ZeroCapacity.

Context {T : Type}.
Variable bits : Z.
Hypothesis Hbits : 1 < 2 ^ bits.

Lemma next_index_zero_capacity i : next_index bits 0 i = 0.
Proof.
  unfold next_index, buffer_size. cbn [Z.add Pos.add].
  unfold wrap at 2. rewrite (Z.mod_small 1) by lia. apply Z.mod_1_r.
Qed.

(** X7 (zero capacity).  A queue instantiated with [Capacity = 0] accepts
    nothing: whatever the calls made on a fresh one, every [push] returns
    [false], every [pop] returns no value, the object stays as constructed,
    and [empty] and [full] both return [true]. *)
Theorem zero_capacity_accepts_nothing (init : list T) (cs : list call) :
  exists es tr,
    run bits 0 cs (fresh init) = Done es (fresh init) tr /\
    accepted es = [] /\ received es = [] /\
    (exists tre, empty (fresh init) = Done true (fresh init) tre) /\
    (exists trf, full bits 0 (fresh init) = Done true (fresh init) trf).
Proof.
  assert (Hrun : exists es tr,
             run bits 0 cs (fresh init) = Done es (fresh init) tr /\
             accepted es = [] /\ received es = []).
  { induction cs as [|c cs (es & tr & IH & Ha & Hr)].
    - exists [], []. repeat split; reflexivity.
    - destruct c as [item|].
      + do 2 eexists. split.
        * eapply run_cons; [|exact IH].
          apply perform_push, push_when_full;
            cbn; apply next_index_zero_capacity.
        * split; assumption.
      + do 2 eexists. split.
        * eapply run_cons; [|exact IH].
          apply perform_pop, pop_when_empty; reflexivity.
        * split; assumption. }
  destruct Hrun as (es & tr & Hrun & Ha & Hr).
  exists es, tr. repeat split; try assumption.
  - eexists. reflexivity.
  - eexists. rewrite full_eq. cbn. rewrite next_index_zero_capacity.
    reflexivity.
Qed.

End ZeroCapacity.

(** ** The stress test, one call at a time *)

Section TestTheory.

Variable bits : Z.
Variable Capacity : Z.
Variable item_count : Z.
Variable init : list Z.

Local Abbreviation count := (@count Z bits Capacity).
Local Abbreviation contents := (@contents Z bits Capacity).
Local Abbreviation Inv := (@Inv Z bits Capacity).
Local Abbreviation producer_step := (producer_step bits Capacity item_count).
Local Abbreviation consumer_step := (consumer_step bits Capacity item_count).
Local Abbreviation thread_step := (thread_step bits Capacity item_count).
Local Abbreviation schedule := (schedule bits Capacity item_count).
Local Abbreviation joined := (joined item_count).
Local Abbreviation expected_sum := (expected_sum item_count).
Local Abbreviation checks_pass := (checks_pass item_count).
Local Abbreviation test_inv := (test_inv bits Capacity item_count).

Hypothesis Hcap : capacity_ok bits Capacity.
Hypothesis Hitems : 0 <= item_count <= INT_MAX.
Hypothesis Hinit : Z.of_nat (length init) = buffer_size bits Capacity.

Lemma consecutive_snoc n : forall lo,
  consecutive lo (S n) = consecutive lo n ++ [lo + Z.of_nat n].
Proof.
  induction n as [|n IH]; intros lo.
  - cbn. rewrite Z.add_0_r. reflexivity.
  - change (consecutive lo (S (S n)))
      with (lo :: consecutive (lo + 1) (S n)).
    rewrite IH. cbn [consecutive app]. do 3 f_equal. lia.
Qed.

Lemma consecutive_length n : forall lo, length (consecutive lo n) = n.
Proof. induction n as [|n IH]; intros lo; cbn; [|rewrite IH]; reflexivity. Qed.

Lemma INT_MAX_eq : INT_MAX = 2147483647.
Proof. reflexivity. Qed.

Lemma LLONG_MAX_eq : LLONG_MAX = 9223372036854775807.
Proof. reflexivity. Qed.

Lemma fits_int_intro x : 0 <= x <= INT_MAX -> fits_int x = true.
Proof.
  intros Hx. unfold fits_int. rewrite INT_MAX_eq in *.
  apply andb_true_intro. split; apply Z.leb_le; lia.
Qed.

Lemma fits_llong_sum a x :
  2 * a = x * (x - 1) -> 0 <= x <= INT_MAX -> fits_llong (a + x) = true.
Proof.
  intros Ha Hx. unfold fits_llong. rewrite LLONG_MAX_eq. rewrite INT_MAX_eq in Hx.
  apply andb_true_intro. split; apply Z.leb_le; nia.
Qed.

Lemma test_inv_start : test_inv (test_start init).
Proof.
  unfold test_inv. cbn.
  split; [apply (fresh_Inv bits Capacity Hcap init Hinit)|].
  repeat split; lia.
Qed.

Lemma test_inv_count s :
  test_inv s -> count (queue s) = i_ s - items_received s.
Proof.
  intros (HQ & Hr & Hi & Hc & _).
  rewrite <- (contents_length bits Capacity Hcap _ HQ), Hc.
  rewrite consecutive_length. lia.
Qed.

Lemma producer_step_spec s :
  test_inv s ->
  exists s',
    producer_step s = Some s' /\ test_inv s' /\
    items_received s' = items_received s /\
    i_ s' = if (i_ s <? item_count)
               && (i_ s - items_received s <? Capacity)
            then i_ s + 1 else i_ s.
Proof.
  intros HI. pose proof (test_inv_count s HI) as Hcnt.
  destruct HI as (HQ & Hr & Hi & Hc & Hps & Hcs).
  unfold producer_step.
  destruct (Z.ltb_spec (i_ s) item_count) as [Hlt|Hge]; cbn [andb].
  2:{ exists s. unfold test_inv. auto 10. }
  destruct (push_refines bits Capacity Hcap (i_ s) (queue s) HQ)
    as (q' & tr & Hp & HQ' & Hc').
  rewrite Hp. rewrite Hcnt in *.
  destruct (Z.ltb_spec (i_ s - items_received s) Capacity) as [Hroom|Hfull].
  - rewrite (fits_llong_sum _ _ Hps) by lia.
    rewrite fits_int_intro by lia. cbn [andb].
    eexists. split; [reflexivity|]. split; [|cbn; auto].
    unfold test_inv. cbn.
    split; [exact HQ'|]. repeat split; try lia.
    rewrite Hc', Hc.
    replace (Z.to_nat (i_ s + 1 - items_received s))
      with (S (Z.to_nat (i_ s - items_received s))) by lia.
    rewrite consecutive_snoc. do 2 f_equal. lia.
  - eexists. split; [reflexivity|]. split; [|cbn; auto].
    unfold test_inv. cbn.
    split; [exact HQ'|]. repeat split; try lia. rewrite Hc', Hc. reflexivity.
Qed.

Lemma consumer_step_spec s :
  test_inv s ->
  exists s',
    consumer_step s = Some s' /\ test_inv s' /\
    i_ s' = i_ s /\
    items_received s' = if (items_received s <? item_count)
                           && (items_received s <? i_ s)
                        then items_received s + 1 else items_received s.
Proof.
  intros (HQ & Hr & Hi & Hc & Hps & Hcs).
  unfold consumer_step.
  destruct (Z.ltb_spec (items_received s) item_count) as [Hlt|Hge];
    cbn [andb].
  2:{ exists s. unfold test_inv. auto 10. }
  destruct (pop_refines bits Capacity Hcap (queue s) HQ)
    as (q' & tr & Hp & HQ' & Hc').
  rewrite Hp. rewrite Hc in *.
  destruct (Z.ltb_spec (items_received s) (i_ s)) as [Hsome|Hnone].
  - destruct (Z.to_nat (i_ s - items_received s)) as [|m] eqn:Em; [lia|].
    cbn [consecutive head tail] in *.
    rewrite (fits_llong_sum _ _ Hcs) by lia.
    rewrite fits_int_intro by lia. cbn [andb].
    eexists. split; [reflexivity|]. split; [|cbn; auto].
    unfold test_inv. cbn.
    split; [exact HQ'|]. repeat split; try lia.
    rewrite Hc'. f_equal. lia.
  - replace (Z.to_nat (i_ s - items_received s)) with O in * by lia.
    cbn [consecutive head tail] in *.
    eexists. split; [reflexivity|]. split; [|cbn; auto].
    unfold test_inv. cbn.
    split; [exact HQ'|]. repeat split; try lia.
    rewrite Hc'. replace (Z.to_nat (i_ s - items_received s)) with O by lia.
    reflexivity.
Qed.

Lemma schedule_inv ts : forall s,
  test_inv s -> exists s', schedule ts s = Some s' /\ test_inv s'.
Proof.
  induction ts as [|t ts IH]; intros s HI; [exists s; auto|].
  assert (exists s1, thread_step t s = Some s1 /\ test_inv s1)
    as (s1 & H1 & HI1).
  { destruct t.
    - destruct (producer_step_spec s HI) as (s1 & H1 & HI1 & _). eauto.
    - destruct (consumer_step_spec s HI) as (s1 & H1 & HI1 & _). eauto. }
  destruct (IH s1 HI1) as (s2 & H2 & HI2).
  exists s2. cbn [schedule]. rewrite H1. auto.
Qed.

Lemma schedule_app ts1 ts2 : forall s s1,
  schedule ts1 s = Some s1 -> schedule (ts1 ++ ts2) s = schedule ts2 s1.
Proof.
  induction ts1 as [|t ts1 IH]; intros s s1; cbn.
  - intros [= ->]. reflexivity.
  - destruct (thread_step t s) as [s'|]; [apply IH|discriminate].
Qed.

Lemma joined_checks s :
  test_inv s -> joined s = true -> checks_pass s = true.
Proof.
  intros (_ & Hr & Hi & _ & Hps & Hcs). unfold joined.
  intros Hj. apply andb_prop in Hj as [Hj1 Hj2].
  apply negb_true_iff, Z.ltb_ge in Hj1, Hj2.
  assert (Ei : i_ s = item_count) by lia.
  assert (Er : items_received s = item_count) by lia.
  unfold checks_pass, expected_sum.
  rewrite Ei in Hps. rewrite Er in Hcs.
  rewrite <- Hcs, Z.mul_comm, Z.quot_mul by lia.
  apply andb_true_intro. split; apply Z.eqb_eq; lia.
Qed.

(** X8 (the test's checks hold in every schedule).  Whatever the order in
    which the two threads take their steps, no step is undefined, the
    producer's sum is the sum of the items pushed so far and the consumer's
    sum is the sum of the items popped so far, the consumer is behind the
    producer by at most [Capacity] items, and once both threads have ended
    both [BOOST_CHECK_EQUAL]s succeed. *)
Theorem test_checks_in_every_schedule ts :
  exists s,
    schedule ts (test_start init) = Some s /\
    0 <= items_received s <= i_ s /\
    i_ s <= item_count /\
    i_ s - items_received s <= Capacity /\
    2 * producer_sum s = i_ s * (i_ s - 1) /\
    2 * consumer_sum s = items_received s * (items_received s - 1) /\
    (joined s = true -> checks_pass s = true).
Proof.
  destruct (schedule_inv ts _ test_inv_start) as (s & Hs & HI).
  exists s. split; [exact Hs|].
  pose proof (test_inv_count s HI) as Hcnt.
  pose proof HI as (HQ & Hr & Hi & _ & Hps & Hcs).
  pose proof (count_bounds bits Capacity _ HQ) as Hb.
  repeat split; try lia. apply joined_checks, HI.
Qed.

(** X9 (the two threads never both spin).  In every state a schedule
    reaches before both threads have ended, at least one of the two threads
    makes progress with its next step: its [push] is accepted or its [pop]
    returns an item. *)
Theorem test_never_stuck ts s :
  schedule ts (test_start init) = Some s ->
  joined s = false ->
  exists t s',
    thread_step t s = Some s' /\
    i_ s' + items_received s' = i_ s + items_received s + 1.
Proof.
  intros Hs Hj.
  destruct (schedule_inv ts _ test_inv_start) as (s0 & Hs0 & HI).
  rewrite Hs in Hs0. injection Hs0 as <-.
  pose proof HI as (HQ & Hr & Hi & _).
  pose proof (test_inv_count s HI) as Hcnt.
  pose proof (count_bounds bits Capacity _ HQ) as Hb.
  destruct Hcap as [Hc1 _].
  unfold joined in Hj.
  destruct (Z.ltb_spec (items_received s) (i_ s)) as [Hsome|Hnone].
  - exists consumer.
    destruct (consumer_step_spec s HI) as (s' & H' & _ & Hi' & Hr').
    exists s'. split; [exact H'|].
    destruct (Z.ltb_spec (items_received s) item_count);
      destruct (Z.ltb_spec (items_received s) (i_ s)); cbn in Hr'; lia.
  - exists producer.
    destruct (producer_step_spec s HI) as (s' & H' & _ & Hr' & Hi').
    exists s'. split; [exact H'|].
    destruct (Z.ltb_spec (i_ s) item_count);
      destruct (Z.ltb_spec (items_received s) item_count);
      destruct (Z.ltb_spec (i_ s - items_received s) Capacity);
      cbn in Hi', Hj; try discriminate; lia.
Qed.

Lemma round_robin_progress k : forall s,
  test_inv s ->
  exists s',
    schedule (round_robin k) s = Some s' /\ test_inv s' /\
    items_received s' = Z.min item_count (items_received s + Z.of_nat k).
Proof.
  induction k as [|k IH]; intros s HI.
  - exists s. pose proof HI as (_ & Hr & Hi & _).
    split; [reflexivity|]. split; [exact HI|lia].
  - destruct (producer_step_spec s HI) as (s1 & H1 & HI1 & Hr1 & Hi1).
    destruct (consumer_step_spec s1 HI1) as (s2 & H2 & HI2 & Hi2 & Hr2).
    destruct (IH s2 HI2) as (s3 & H3 & HI3 & Hr3).
    exists s3. split; [|split; [exact HI3|]].
    + cbn [round_robin schedule thread_step].
      rewrite H1, H2. exact H3.
    + pose proof HI as (HQ & Hr & Hi & _).
      pose proof (test_inv_count s HI) as Hcnt.
      pose proof (count_bounds bits Capacity _ HQ) as Hb.
      destruct Hcap as [Hc1 _].
      rewrite Hr3, Hr2, Hr1, Hi1.
      destruct (Z.ltb_spec (i_ s) item_count);
        destruct (Z.ltb_spec (i_ s - items_received s) Capacity);
        destruct (Z.ltb_spec (items_received s) item_count);
        cbn [andb];
        match goal with
        | |- context [Z.ltb ?a ?b] => destruct (Z.ltb_spec a b)
        | _ => idtac
        end; cbn [andb]; lia.
Qed.

(** X10 (alternation ends the test).  After any schedule, if the two threads
    then take turns, the producer first, both threads have ended after at
    most [item_count] rounds, and both checks succeed. *)
Theorem test_round_robin_completes ts :
  exists s,
    schedule (ts ++ round_robin (Z.to_nat item_count)) (test_start init)
    = Some s /\
    joined s = true /\ checks_pass s = true.
Proof.
  destruct (schedule_inv ts _ test_inv_start) as (s1 & H1 & HI1).
  destruct (round_robin_progress (Z.to_nat item_count) s1 HI1)
    as (s2 & H2 & HI2 & Hr2).
  exists s2. rewrite (schedule_app _ _ _ _ H1). split; [exact H2|].
  assert (Hj : joined s2 = true).
  { pose proof HI1 as (_ & Hr & _). pose proof HI2 as (_ & Hr' & Hi' & _).
    unfold joined. apply andb_true_intro.
    split; apply negb_true_iff, Z.ltb_ge; lia. }
  split; [exact Hj|apply joined_checks; assumption].
Qed.

End TestTheory.


(** ** Concrete instances

    [LockFreeSPSC<int, 2>] and [LockFreeSPSC<int, 1>] on a 64-bit
    [size_t], elements as integers, slots initially zero. *)

Lemma capacity_ok_64_2 : capacity_ok 64 2.
Proof. split; [lia|reflexivity]. Defined.

Lemma capacity_ok_64_1 : capacity_ok 64 1.
Proof. split; [lia|reflexivity]. Defined.

(** Index wrap-around on a queue of capacity two: seven calls, the cursors
    pass the end of the three-slot array, order is kept. *)
Example run_wraps_around :
  run 64 2 [Push 1; Push 2; Push 3; Pop; Push 4; Pop; Pop; Pop; Pop]
    (fresh [0; 0; 0])
  = Done
      [Pushed 1 true; Pushed 2 true; Pushed 3 false; Popped (Some 1);
       Pushed 4 true; Popped (Some 2); Popped (Some 4); Popped None;
       Popped None]
      {| buffer_ := [1; 2; 4]; head_ := 0; cached_tail_ := 0;
         tail_ := 0; cached_head_ := 1 |}
      [Load Tail memory_order_relaxed; SlotWrite 0;
       Store Tail memory_order_release 1;
       Load Tail memory_order_relaxed; SlotWrite 1;
       Store Tail memory_order_release 2;
       Load Tail memory_order_relaxed; Load Head memory_order_acquire;
       Load Head memory_order_relaxed; Load Tail memory_order_acquire;
       SlotRead 0; Store Head memory_order_release 1;
       Load Tail memory_order_relaxed; Load Head memory_order_acquire;
       SlotWrite 2; Store Tail memory_order_release 0;
       Load Head memory_order_relaxed; SlotRead 1;
       Store Head memory_order_release 2;
       Load Head memory_order_relaxed; Load Tail memory_order_acquire;
       SlotRead 2; Store Head memory_order_release 0;
       Load Head memory_order_relaxed; Load Tail memory_order_acquire;
       Load Head memory_order_relaxed; Load Tail memory_order_acquire].
Proof. vm_compute. reflexivity. Qed.

(** A single-slot queue, alternating [push] and [pop]. *)
Example single_slot_alternation :
  run 64 1 [Push 7; Push 8; Pop; Pop; Push 9; Pop] (fresh [0; 0])
  = Done
      [Pushed 7 true; Pushed 8 false; Popped (Some 7); Popped None;
       Pushed 9 true; Popped (Some 9)]
      {| buffer_ := [7; 9]; head_ := 0; cached_tail_ := 0;
         tail_ := 0; cached_head_ := 1 |}
      [Load Tail memory_order_relaxed; SlotWrite 0;
       Store Tail memory_order_release 1;
       Load Tail memory_order_relaxed; Load Head memory_order_acquire;
       Load Head memory_order_relaxed; Load Tail memory_order_acquire;
       SlotRead 0; Store Head memory_order_release 1;
       Load Head memory_order_relaxed; Load Tail memory_order_acquire;
       Load Tail memory_order_relaxed; Load Head memory_order_acquire;
       SlotWrite 1; Store Tail memory_order_release 0;
       Load Head memory_order_relaxed; Load Tail memory_order_acquire;
       SlotRead 1; Store Head memory_order_release 0].
Proof. vm_compute. reflexivity. Qed.

Lemma fifo_no_loss_no_duplication_witness :
  capacity_ok 64 2 /\
  Z.of_nat (length [0; 0; 0]) = buffer_size 64 2 /\
  (Z.to_nat 2 < 3)%nat /\
  exists es q tr rest q' tr',
    run 64 2 [Push 1; Push 2; Pop; Push 3; Push 4; Pop; Push 5]
      (fresh [0; 0; 0]) = Done es q tr /\
    drain 64 2 3 q = Done (Some rest) q' tr' /\
    received es ++ rest = accepted es /\
    (all_accepted es = true ->
     received es ++ rest
     = offered [Push 1; Push 2; Pop; Push 3; Push 4; Pop; Push 5]).
Proof.
  split; [exact capacity_ok_64_2|]. split; [reflexivity|]. split; [lia|].
  apply (fifo_no_loss_no_duplication 64 2 capacity_ok_64_2);
    [reflexivity|lia].
Defined.

Lemma capacity_boundary_witness :
  capacity_ok 64 2 /\
  Z.of_nat (length [0; 0; 0]) = buffer_size 64 2 /\
  Z.of_nat (length [10; 20]) = 2 /\
  exists q1 tr1 tr2 q2 tr3 tr4 q3 tr5,
    push_all 64 2 [10; 20] (fresh [0; 0; 0])
    = Done (repeat true (length [10; 20])) q1 tr1 /\
    push 64 2 30 q1 = Done false q1 tr2 /\
    (forall k, exists oks qk trk,
        push_all 64 2 (take k ([10; 20] ++ [30])) (fresh [0; 0; 0])
        = Done oks qk trk /\
        Z.of_nat (length (contents 64 2 qk)) = count 64 2 qk /\
        count 64 2 qk <= 2) /\
    pop_n 64 2 (length [10; 20]) q1 = Done (Some <$> [10; 20]) q2 tr3 /\
    full 64 2 q2 = Done false q2 tr4 /\
    push 64 2 30 q2 = Done true q3 tr5.
Proof.
  split; [exact capacity_ok_64_2|]. split; [reflexivity|].
  split; [reflexivity|].
  apply (capacity_boundary 64 2 capacity_ok_64_2 [0; 0; 0] [10; 20] 30);
    reflexivity.
Defined.

Lemma pop_on_empty_is_absent_witness :
  capacity_ok 64 2 /\
  Z.of_nat (length [0; 0; 0]) = buffer_size 64 2 /\
  run 64 2 [Push 1; Pop] (fresh [0; 0; 0])
  = Done [Pushed 1 true; Popped (Some 1)]
      {| buffer_ := [1; 0; 0]; head_ := 1; cached_tail_ := 1;
         tail_ := 1; cached_head_ := 0 |}
      [Load Tail memory_order_relaxed; SlotWrite 0;
       Store Tail memory_order_release 1;
       Load Head memory_order_relaxed; Load Tail memory_order_acquire;
       SlotRead 0; Store Head memory_order_release 1] /\
  pop 64 2 {| buffer_ := [1; 0; 0]; head_ := 1; cached_tail_ := 1;
              tail_ := 1; cached_head_ := 0 |}
  = Done None {| buffer_ := [1; 0; 0]; head_ := 1; cached_tail_ := 1;
                 tail_ := 1; cached_head_ := 0 |}
      [Load Head memory_order_relaxed; Load Tail memory_order_acquire].
Proof.
  split; [exact capacity_ok_64_2|]. split; [reflexivity|].
  split; [reflexivity|].
  apply (proj2 (pop_on_empty_is_absent 64 2 capacity_ok_64_2 [0; 0; 0]
                  eq_refl) [Push 1; Pop] _ _ _ eq_refl eq_refl).
Defined.

Lemma failed_call_leaves_state_witness :
  let q := {| buffer_ := [10; 20; 0]; head_ := 0; cached_tail_ := 0;
              tail_ := 2; cached_head_ := 0 |} in
  let e := fresh [0; 0; 0] in
  exists q' tr e' tr',
    push 64 2 30 q = Done false q' tr /\
    pop 64 2 e = Done None e' tr' /\
    (q' = q /\
     tr = [Load Tail memory_order_relaxed; Load Head memory_order_acquire])
    /\
    (e' = e /\
     tr' = [Load Head memory_order_relaxed; Load Tail memory_order_acquire]).
Proof.
  intros q e. do 4 eexists.
  split; [reflexivity|]. split; [reflexivity|]. split.
  - apply (proj1 (failed_call_leaves_state 64 2 q) 30 _ _ eq_refl).
  - apply (proj2 (failed_call_leaves_state 64 2 e) _ _ eq_refl).
Defined.

Lemma cursor_invariant_witness :
  capacity_ok 64 2 /\
  Z.of_nat (length [0; 0; 0]) = buffer_size 64 2 /\
  cursor_inv 64 2 (fresh [0; 0; 0]) /\
  (exists b q' tr,
      push 64 2 5 (fresh [0; 0; 0]) = Done b q' tr /\ cursor_inv 64 2 q') /\
  (exists r q' tr,
      pop 64 2 {| buffer_ := [5; 0; 0]; head_ := 0; cached_tail_ := 0;
                  tail_ := 1; cached_head_ := 0 |} = Done r q' tr /\
      cursor_inv 64 2 q') /\
  (exists es q tr,
      run 64 2 [Push 1; Push 2; Pop; Push 3; Push 4; Pop; Pop; Pop]
        (fresh [0; 0; 0]) = Done es q tr /\
      cursor_inv 64 2 q).
Proof.
  pose proof (cursor_invariant 64 2 capacity_ok_64_2 [0; 0; 0] eq_refl)
    as (H0 & Hpush & Hpop & Hrun).
  split; [exact capacity_ok_64_2|]. split; [reflexivity|].
  split; [exact H0|]. split; [|split].
  - do 3 eexists. split; [reflexivity|].
    apply (Hpush (fresh [0; 0; 0]) 5 _ _ _ H0 eq_refl).
  - do 3 eexists. split; [reflexivity|].
    refine (Hpop {| buffer_ := [5; 0; 0]; head_ := 0; cached_tail_ := 0;
                    tail_ := 1; cached_head_ := 0 |} _ _ _ _ eq_refl).
    unfold cursor_inv, in_range, count. cbn. vm_compute.
    repeat split; discriminate.
  - apply Hrun.
Defined.

Lemma empty_full_meaning_witness :
  let q := {| buffer_ := [10; 20; 0]; head_ := 0; cached_tail_ := 0;
              tail_ := 2; cached_head_ := 0 |} in
  capacity_ok 64 2 /\ in_range 64 2 (tail_ q) /\
  exists be bf tre trf,
    empty q = Done be q tre /\ full 64 2 q = Done bf q trf /\
    (be = true <-> head_ q = tail_ q) /\
    (bf = true <-> (tail_ q + 1) mod (2 + 1) = head_ q) /\
    tre ≡ₚ [Load Head memory_order_acquire; Load Tail memory_order_acquire] /\
    trf ≡ₚ [Load Head memory_order_acquire; Load Tail memory_order_acquire].
Proof.
  intros q. split; [exact capacity_ok_64_2|].
  assert (Ht : in_range 64 2 (tail_ q)) by (vm_compute; split; congruence).
  split; [exact Ht|].
  apply (empty_full_meaning 64 2 capacity_ok_64_2 q Ht).
Defined.

Lemma empty_full_exclusive_witness :
  let q := fresh [0; 0] in
  capacity_ok 64 1 /\
  empty q = Done true q
    [Load Head memory_order_acquire; Load Tail memory_order_acquire] /\
  full 64 1 q = Done false q
    [Load Tail memory_order_acquire; Load Head memory_order_acquire] /\
  ~ (head_ q = tail_ q /\ (tail_ q + 1) mod (1 + 1) = head_ q) /\
  true && false = false.
Proof.
  intros q. split; [exact capacity_ok_64_1|].
  split; [reflexivity|]. split; [reflexivity|].
  pose proof (empty_full_exclusive 64 1 capacity_ok_64_1 q) as [Hc Hf].
  split; [exact Hc|].
  apply (Hf true false q q _ _ eq_refl eq_refl).
Defined.

Lemma shadow_copies_conservative_witness :
  let cs := [Push 1; Push 2; Pop] in
  let q := {| buffer_ := [1; 2; 0]; head_ := 1; cached_tail_ := 2;
              tail_ := 2; cached_head_ := 0 |} in
  capacity_ok 64 2 /\
  Z.of_nat (length [0; 0; 0]) = buffer_size 64 2 /\
  (exists es tr, run 64 2 cs (fresh [0; 0; 0]) = Done es q tr) /\
  producer_view 64 2 q >= count 64 2 q /\
  consumer_view 64 2 q <= count 64 2 q /\
  (next_index 64 2 (tail_ q) <> cached_head_ q -> count 64 2 q < 2) /\
  (head_ q <> cached_tail_ q ->
   exists x q', pop 64 2 q = Done (Some x) q'
                  [Load Head memory_order_relaxed; SlotRead (head_ q);
                   Store Head memory_order_release (next_index 64 2 (head_ q))]
                /\ contents 64 2 q = x :: contents 64 2 q').
Proof.
  intros cs q. split; [exact capacity_ok_64_2|]. split; [reflexivity|].
  split; [do 2 eexists; reflexivity|].
  pose proof (shadow_copies_conservative 64 2 capacity_ok_64_2
                [0; 0; 0] cs _ q _ eq_refl eq_refl) as (Hp & Hc & Hf & He).
  split; [exact Hp|]. split; [exact Hc|]. split.
  - intros Hne. apply (proj1 (Hf Hne)).
  - intros Hne. apply (proj2 (He Hne)).
Defined.

Lemma push_pop_return_at_once_witness :
  let cs := [Push 1; Push 2; Pop] in
  let q := {| buffer_ := [1; 2; 0]; head_ := 1; cached_tail_ := 2;
              tail_ := 2; cached_head_ := 0 |} in
  capacity_ok 64 2 /\
  Z.of_nat (length [0; 0; 0]) = buffer_size 64 2 /\
  (exists es tr, run 64 2 cs (fresh [0; 0; 0]) = Done es q tr) /\
  (exists b q' tr', push 64 2 3 q = Done b q' tr' /\ (length tr' <= 4)%nat) /\
  (exists r q' tr', pop 64 2 q = Done r q' tr' /\ (length tr' <= 4)%nat).
Proof.
  intros cs q. split; [exact capacity_ok_64_2|]. split; [reflexivity|].
  split; [do 2 eexists; reflexivity|].
  pose proof (push_pop_return_at_once 64 2 capacity_ok_64_2
                [0; 0; 0] cs _ q _ eq_refl eq_refl) as (Hpush & Hpop).
  split.
  - destruct (Hpush 3) as (b & q' & tr' & H1 & H2 & _). eauto.
  - destruct Hpop as (r & q' & tr' & H1 & H2 & _). eauto.
Defined.

Lemma next_index_iterated_witness :
  capacity_ok 64 2 /\ in_range 64 2 1 /\
  Nat.iter 5 (next_index 64 2) 1 = (1 + Z.of_nat 5) mod (2 + 1) /\
  Nat.iter (Z.to_nat (2 + 1)) (next_index 64 2) 1 = 1.
Proof.
  assert (Hr : in_range 64 2 1) by (vm_compute; split; congruence).
  split; [exact capacity_ok_64_2|]. split; [exact Hr|].
  apply (next_index_iterated 64 2 capacity_ok_64_2 1 5 Hr).
Defined.

Lemma producer_consumer_ownership_witness :
  let q := {| buffer_ := [1; 2; 0]; head_ := 1; cached_tail_ := 2;
              tail_ := 2; cached_head_ := 0 |} in
  exists b q1 tr1 r q2 tr2,
    push 64 2 3 q = Done b q1 tr1 /\
    pop 64 2 q = Done r q2 tr2 /\
    (head_ q1 = head_ q /\ cached_tail_ q1 = cached_tail_ q /\
     length (buffer_ q1) = length (buffer_ q) /\
     forall j, j <> Z.to_nat (tail_ q) -> buffer_ q1 !! j = buffer_ q !! j) /\
    (tail_ q2 = tail_ q /\ cached_head_ q2 = cached_head_ q /\
     buffer_ q2 = buffer_ q).
Proof.
  intros q. do 6 eexists.
  split; [reflexivity|]. split; [reflexivity|]. split.
  - apply (proj1 (producer_consumer_ownership 64 2 q) 3 _ _ _ eq_refl).
  - apply (proj2 (producer_consumer_ownership 64 2 q) _ _ _ eq_refl).
Defined.

Lemma slot_access_then_release_witness :
  let q := {| buffer_ := [1; 2; 0]; head_ := 1; cached_tail_ := 2;
              tail_ := 2; cached_head_ := 0 |} in
  exists q1 tr1 x q2 tr2,
    push 64 2 3 q = Done true q1 tr1 /\
    pop 64 2 q = Done (Some x) q2 tr2 /\
    (exists pre,
        tr1 = pre ++ [SlotWrite (tail_ q);
                      Store Tail memory_order_release (tail_ q1)] /\
        Forall (fun a => is_atomic_load a = true) pre) /\
    (exists pre,
        tr2 = pre ++ [SlotRead (head_ q);
                      Store Head memory_order_release (head_ q2)] /\
        Forall (fun a => is_atomic_load a = true) pre).
Proof.
  intros q. do 5 eexists.
  split; [reflexivity|]. split; [reflexivity|]. split.
  - apply (proj1 (slot_access_then_release 64 2 q) 3 _ _ eq_refl).
  - apply (proj2 (slot_access_then_release 64 2 q) _ _ _ eq_refl).
Defined.

Lemma refines_bounded_fifo_witness :
  let cs := [Push 1; Push 2; Pop] in
  let q := {| buffer_ := [1; 2; 0]; head_ := 1; cached_tail_ := 2;
              tail_ := 2; cached_head_ := 0 |} in
  capacity_ok 64 2 /\
  Z.of_nat (length [0; 0; 0]) = buffer_size 64 2 /\
  (exists es tr, run 64 2 cs (fresh [0; 0; 0]) = Done es q tr) /\
  (forall item, exists q' tr',
      push 64 2 item q
      = Done (Z.of_nat (length (contents 64 2 q)) <? 2) q' tr' /\
      contents 64 2 q' =
        if Z.of_nat (length (contents 64 2 q)) <? 2
        then contents 64 2 q ++ [item] else contents 64 2 q) /\
  (exists q' tr',
      pop 64 2 q = Done (head (contents 64 2 q)) q' tr' /\
      contents 64 2 q' = tail (contents 64 2 q)).
Proof.
  intros cs q. split; [exact capacity_ok_64_2|]. split; [reflexivity|].
  split; [do 2 eexists; reflexivity|].
  apply (refines_bounded_fifo 64 2 capacity_ok_64_2 [0; 0; 0] cs _ q _
           eq_refl eq_refl).
Defined.

Lemma observers_agree_with_calls_witness :
  let cs := [Push 1; Push 2; Pop] in
  let q := {| buffer_ := [1; 2; 0]; head_ := 1; cached_tail_ := 2;
              tail_ := 2; cached_head_ := 0 |} in
  capacity_ok 64 2 /\
  Z.of_nat (length [0; 0; 0]) = buffer_size 64 2 /\
  (exists es tr, run 64 2 cs (fresh [0; 0; 0]) = Done es q tr) /\
  exists be bf tre trf,
    empty q = Done be q tre /\ full 64 2 q = Done bf q trf /\
    (be = true <-> contents 64 2 q = []) /\
    (bf = true <-> Z.of_nat (length (contents 64 2 q)) = 2) /\
    (forall item, exists q' tr', push 64 2 item q = Done (negb bf) q' tr') /\
    (exists r q' tr', pop 64 2 q = Done r q' tr' /\ (r = None <-> be = true)).
Proof.
  intros cs q. split; [exact capacity_ok_64_2|]. split; [reflexivity|].
  split; [do 2 eexists; reflexivity|].
  apply (observers_agree_with_calls 64 2 capacity_ok_64_2 [0; 0; 0] cs _ q _
           eq_refl eq_refl).
Defined.

Lemma cursors_count_calls_witness :
  let cs := [Push 1; Push 2; Pop; Push 3; Pop; Push 4; Push 5] in
  let es := [Pushed 1 true; Pushed 2 true; Popped (Some 1); Pushed 3 true;
             Popped (Some 2); Pushed 4 true; Pushed 5 false] in
  let q := {| buffer_ := [4; 2; 3]; head_ := 2; cached_tail_ := 2;
              tail_ := 1; cached_head_ := 2 |} in
  capacity_ok 64 2 /\
  Z.of_nat (length [0; 0; 0]) = buffer_size 64 2 /\
  (exists tr, run 64 2 cs (fresh [0; 0; 0]) = Done es q tr) /\
  tail_ q = Z.of_nat (length (accepted es)) mod (2 + 1) /\
  head_ q = Z.of_nat (length (received es)) mod (2 + 1) /\
  Z.of_nat (length (contents 64 2 q))
  = Z.of_nat (length (accepted es)) - Z.of_nat (length (received es)).
Proof.
  intros cs es q.
  assert (Hrun : exists tr, run 64 2 cs (fresh [0; 0; 0]) = Done es q tr)
    by (eexists; vm_compute; reflexivity).
  split; [exact capacity_ok_64_2|]. split; [reflexivity|].
  split; [exact Hrun|]. destruct Hrun as [tr Hrun].
  apply (cursors_count_calls 64 2 capacity_ok_64_2 [0; 0; 0] cs es q tr
           eq_refl Hrun).
Defined.

Lemma zero_capacity_accepts_nothing_witness :
  1 < 2 ^ 64 /\
  exists es tr,
    run 64 0 [Push 1; Pop; Push 2] (fresh [0]) = Done es (fresh [0]) tr /\
    accepted es = [] /\ received es = [] /\
    (exists tre, empty (fresh [0]) = Done true (fresh [0]) tre) /\
    (exists trf, full 64 0 (fresh [0]) = Done true (fresh [0]) trf).
Proof.
  split; [reflexivity|].
  apply (zero_capacity_accepts_nothing 64 eq_refl [0] [Push 1; Pop; Push 2]).
Defined.

(** The constants of the source: [LockFreeSPSC<int, 16>] and
    [item_count = 500000], seventeen slots initially zero. *)

Lemma capacity_ok_64_16 : capacity_ok 64 16.
Proof. split; [lia|reflexivity]. Defined.

Lemma item_count_500000_ok : 0 <= 500000 <= INT_MAX.
Proof. split; discriminate. Defined.

Example expected_sum_500000 : expected_sum 500000 = 124999750000.
Proof. reflexivity. Qed.

Lemma test_checks_in_every_schedule_witness :
  capacity_ok 64 16 /\ 0 <= 500000 <= INT_MAX /\
  Z.of_nat (length (repeat 0 17)) = buffer_size 64 16 /\
  exists s,
    schedule 64 16 500000 [consumer; producer; producer; consumer]
      (test_start (repeat 0 17)) = Some s /\
    0 <= items_received s <= i_ s /\
    i_ s <= 500000 /\
    i_ s - items_received s <= 16 /\
    2 * producer_sum s = i_ s * (i_ s - 1) /\
    2 * consumer_sum s = items_received s * (items_received s - 1) /\
    (joined 500000 s = true -> checks_pass 500000 s = true).
Proof.
  split; [exact capacity_ok_64_16|]. split; [exact item_count_500000_ok|].
  split; [reflexivity|].
  apply (test_checks_in_every_schedule 64 16 500000 (repeat 0 17)
           capacity_ok_64_16 item_count_500000_ok eq_refl).
Defined.

Lemma test_never_stuck_witness :
  let s := {| queue := {| buffer_ := 0 :: 1 :: repeat 0 15; head_ := 1;
                          cached_tail_ := 2; tail_ := 2;
                          cached_head_ := 0 |};
              i_ := 2; producer_sum := 1;
              items_received := 1; consumer_sum := 0 |} in
  capacity_ok 64 16 /\ 0 <= 500000 <= INT_MAX /\
  Z.of_nat (length (repeat 0 17)) = buffer_size 64 16 /\
  schedule 64 16 500000 [consumer; producer; producer; consumer]
    (test_start (repeat 0 17)) = Some s /\
  joined 500000 s = false /\
  exists t s',
    thread_step 64 16 500000 t s = Some s' /\
    i_ s' + items_received s' = i_ s + items_received s + 1.
Proof.
  intros s.
  assert (Hs : schedule 64 16 500000 [consumer; producer; producer; consumer]
                 (test_start (repeat 0 17)) = Some s)
    by (vm_compute; reflexivity).
  assert (Hj : joined 500000 s = false) by (vm_compute; reflexivity).
  split; [exact capacity_ok_64_16|]. split; [exact item_count_500000_ok|].
  split; [reflexivity|]. split; [exact Hs|]. split; [exact Hj|].
  apply (test_never_stuck 64 16 500000 (repeat 0 17)
           capacity_ok_64_16 item_count_500000_ok eq_refl
           [consumer; producer; producer; consumer] s Hs Hj).
Defined.

Lemma test_round_robin_completes_witness :
  capacity_ok 64 16 /\ 0 <= 500000 <= INT_MAX /\
  Z.of_nat (length (repeat 0 17)) = buffer_size 64 16 /\
  exists s,
    schedule 64 16 500000
      ([consumer; producer; producer; consumer]
       ++ round_robin (Z.to_nat 500000))
      (test_start (repeat 0 17)) = Some s /\
    joined 500000 s = true /\ checks_pass 500000 s = true.
Proof.
  split; [exact capacity_ok_64_16|]. split; [exact item_count_500000_ok|].
  split; [reflexivity|].
  apply (test_round_robin_completes 64 16 500000 (repeat 0 17)
           capacity_ok_64_16 item_count_500000_ok eq_refl).
Defined.
